(** * Swarm Algorithm of Thoughts: the optimizer of [app.py]

    A shallow embedding of class [SwarmAoT] (constructor, [_initialize_swarm]
    and [optimize]) and the properties of its optimization loop.

    - A score is a Python number compared with [<].  Python compares ints and
      floats by their exact value, so a finite score is its rational value;
      [float('inf')] is [PInf].  The heuristic's contract is a real number:
      [nan] is outside the model.
    - [heuristic], [update_fn] and [random.choice] are caller-supplied code:
      they read and change the interpreter's ambient state ([World], which
      holds for instance the state of [random]) and may raise.
    - A Python exception leaves the object as it was mutated so far: a
      computation maps a state to an outcome AND the state reached.
    - The [trace] lists, in program order, the calls made to the two
      collaborators with their results and the lines printed, each with
      the iteration and the agent index of the step it belongs to. *)

From Stdlib Require Import ZArith QArith Lia List.
From stdpp Require Import base list.
Import ListNotations.

(** ** Scores *)

Inductive score : Type :=
| NInf
| Fin (q : Q)
| PInf.

Definition Qltb (x y : Q) : bool :=
  (Qnum x * Zpos (Qden y) <? Qnum y * Zpos (Qden x))%Z.

(** [a < b] on Python numbers. *)
Definition score_ltb (a b : score) : bool :=
  match a, b with
  | NInf, NInf => false
  | NInf, _ => true
  | Fin _, NInf => false
  | Fin x, Fin y => Qltb x y
  | Fin _, PInf => true
  | PInf, _ => false
  end.

Definition score_lt (a b : score) : Prop := score_ltb a b = true.
Definition score_le (a b : score) : Prop := score_ltb b a = false.

(** ** Outcomes and computations *)

Inductive outcome (E A : Type) : Type :=
| Returned (a : A)
| Raised (e : E).
Arguments Returned {E A} a.
Arguments Raised {E A} e.

(** A computation over a state [St] that may raise an [E]. *)
Definition M (E St A : Type) : Type := St -> outcome E A * St.

Definition ret {E St A} (a : A) : M E St A := fun s => (Returned a, s).

Definition bind {E St A B} (m : M E St A) (k : A -> M E St B) : M E St B :=
  fun s =>
    match m s with
    | (Returned a, s') => k a s'
    | (Raised e, s') => (Raised e, s')
    end.

Notation "'let!' x := m 'in' k" := (bind m (fun x => k))
  (at level 10, x name, m at level 200, k at level 200).
Notation "m >> k" := (bind m (fun _ => k))
  (at level 65, right associativity).

Section SwarmAoT.

Variables Position Space World Exn : Type.

(** The collaborators. *)
Variable heuristic : Position -> M Exn World score.
Variable update_fn : Position -> Space -> M Exn World Position.
(** [random.choice]. *)
Variable choice : Space -> M Exn World Position.

(** The fields of [self]; [heuristic] and [update_fn] never change and are
    the section's variables. *)
Record SwarmAoT : Type := mkSwarmAoT {
  num_agents : Z;
  problem_space : Space;
  swarm : list Position;
  global_best : option Position;
  global_best_score : score
}.

Inductive event : Type :=
| EvHeuristic (iteration agent_idx : nat) (position : Position)
              (r : outcome Exn score)
| EvPrint (iteration agent_idx : nat) (s : score)
| EvUpdate (iteration agent_idx : nat) (position : Position)
           (r : outcome Exn Position).

Record state : Type := mkState {
  self : SwarmAoT;
  world : World;
  trace : list event
}.

(** *** Construction *)

(** [[random.choice(space) for _ in range(n)]] *)
Fixpoint sample (n : nat) (space : Space) : M Exn World (list Position) :=
  match n with
  | O => ret []
  | S n' =>
      let! p := choice space in
      let! ps := sample n' space in
      ret (p :: ps)
  end.

Definition _initialize_swarm (n : Z) (space : Space)
  : M Exn World (list Position) :=
  sample (Z.to_nat n) space.

(** The object [__init__] builds when the sampling gave [sw]. *)
Definition constructed (n : Z) (space : Space) (sw : list Position)
  : SwarmAoT :=
  {| num_agents := n; problem_space := space; swarm := sw;
     global_best := None; global_best_score := PInf |}.

(** [__init__] *)
Definition init (n : Z) (space : Space) : M Exn World SwarmAoT :=
  let! sw := _initialize_swarm n space in
  ret (constructed n space sw).

(** The state in which [optimize] first runs on an object. *)
Definition start (o : SwarmAoT) (w : World) : state :=
  {| self := o; world := w; trace := [] |}.

(** *** The body of the loops *)

Definition with_best (o : SwarmAoT) (position : Position) (s : score)
  : SwarmAoT :=
  {| num_agents := num_agents o; problem_space := problem_space o;
     swarm := swarm o;
     global_best := Some position; global_best_score := s |}.

Definition with_swarm (o : SwarmAoT) (agent_idx : nat) (v : Position)
  : SwarmAoT :=
  {| num_agents := num_agents o; problem_space := problem_space o;
     swarm := <[agent_idx := v]> (swarm o);
     global_best := global_best o;
     global_best_score := global_best_score o |}.

Definition modify_self (f : SwarmAoT -> SwarmAoT) : M Exn state unit :=
  fun st =>
    (Returned tt,
     {| self := f (self st); world := world st; trace := trace st |}).

Definition emit (ev : event) : M Exn state unit :=
  fun st =>
    (Returned tt,
     {| self := self st; world := world st; trace := trace st ++ [ev] |}).

(** [self.heuristic(position)] *)
Definition call_heuristic (iteration agent_idx : nat) (position : Position)
  : M Exn state score :=
  fun st =>
    let rw := heuristic position (world st) in
    (fst rw,
     {| self := self st; world := snd rw;
        trace := trace st
                 ++ [EvHeuristic iteration agent_idx position (fst rw)] |}).

(** [self.update_fn(position, self.problem_space)] *)
Definition call_update_fn (iteration agent_idx : nat) (position : Position)
  : M Exn state Position :=
  fun st =>
    let rw := update_fn position (problem_space (self st)) (world st) in
    (fst rw,
     {| self := self st; world := snd rw;
        trace := trace st
                 ++ [EvUpdate iteration agent_idx position (fst rw)] |}).

(** Lines 68 to 71. *)
Definition record_best (iteration agent_idx : nat) (position : Position)
    (s : score) : M Exn state unit :=
  fun st =>
    if score_ltb s (global_best_score (self st))
    then (modify_self (fun o => with_best o position s) >>
          emit (EvPrint iteration agent_idx s)) st
    else ret tt st.

(** Lines 65 to 74: what is done for one [(agent_idx, position)].  In
    [self.swarm[agent_idx] = ...] the index was just read from the list, so
    the assignment cannot raise [IndexError]. *)
Definition step (iteration agent_idx : nat) (position : Position)
  : M Exn state unit :=
  let! s := call_heuristic iteration agent_idx position in
  record_best iteration agent_idx position s >>
  let! v := call_update_fn iteration agent_idx position in
  modify_self (fun o => with_swarm o agent_idx v).

(** [for agent_idx, position in enumerate(self.swarm)]: the list iterator
    reads the live list at the next index and stops when the index is past
    its end.  [fuel] bounds the number of turns; [round] gives the length of
    the list, which never ends the loop before the iterator does
    ([for_enumerate_fuel]). *)
Fixpoint for_enumerate (fuel : nat) (iteration agent_idx : nat)
  : M Exn state unit :=
  fun st =>
    match fuel with
    | O => (Returned tt, st)
    | S fuel' =>
        match swarm (self st) !! agent_idx with
        | None => (Returned tt, st)
        | Some position =>
            (step iteration agent_idx position >>
             for_enumerate fuel' iteration (S agent_idx)) st
        end
    end.

(** One turn of the outer loop. *)
Definition round (iteration : nat) : M Exn state unit :=
  fun st => for_enumerate (length (swarm (self st))) iteration 0 st.

(** [for iteration in range(...)], from [iteration] on, [count] turns. *)
Fixpoint for_range (count : nat) (iteration : nat) : M Exn state unit :=
  match count with
  | O => ret tt
  | S count' => round iteration >> for_range count' (S iteration)
  end.

Definition optimize (iterations : Z)
  : M Exn state (option Position * score) :=
  for_range (Z.to_nat iterations) 0 >>
  (fun st =>
     (Returned (global_best (self st), global_best_score (self st)), st)).

(** *** Reading a trace *)

Definition notification : Type := nat * nat * score.

Definition evaluation (ev : event) : option (Position * score) :=
  match ev with
  | EvHeuristic _ _ p (Returned s) => Some (p, s)
  | _ => None
  end.

(** The positions evaluated and their scores, in order. *)
Definition evaluations (tr : list event) : list (Position * score) :=
  omap evaluation tr.

Definition scores (tr : list event) : list score :=
  map snd (evaluations tr).

Definition printed (ev : event) : option notification :=
  match ev with
  | EvPrint iteration agent_idx s => Some (iteration, agent_idx, s)
  | _ => None
  end.

Definition notifications (tr : list event) : list notification :=
  omap printed tr.

(** The call [ev] raised [e]. *)
Definition raises (e : Exn) (ev : event) : Prop :=
  match ev with
  | EvHeuristic _ _ _ (Raised e') => e' = e
  | EvUpdate _ _ _ (Raised e') => e' = e
  | _ => False
  end.

Definition returns (ev : event) : Prop :=
  match ev with
  | EvHeuristic _ _ _ (Raised _) => False
  | EvUpdate _ _ _ (Raised _) => False
  | _ => True
  end.

Definition event_step (ev : event) : nat * nat :=
  match ev with
  | EvHeuristic iteration agent_idx _ _ => (iteration, agent_idx)
  | EvPrint iteration agent_idx _ => (iteration, agent_idx)
  | EvUpdate iteration agent_idx _ _ => (iteration, agent_idx)
  end.

(** [ev] belongs to a step strictly before step [(iteration, agent_idx)]. *)
Definition before_step (iteration agent_idx : nat) (ev : event) : bool :=
  let '(i, a) := event_step ev in
  (i <? iteration)%nat || ((i =? iteration)%nat && (a <? agent_idx)%nat).

Definition evaluations_before (iteration agent_idx : nat) (tr : list event)
  : list (Position * score) :=
  evaluations (List.filter (before_step iteration agent_idx) tr).

(** [s] is the minimum of [l]. *)
Definition is_min (s : score) (l : list score) : Prop :=
  In s l /\ forall s', In s' l -> score_le s s'.

(** [(p, s)] is the first entry of [l] with the minimal score. *)
Definition first_min (l : list (Position * score)) (p : Position)
    (s : score) : Prop :=
  exists l1 l2,
    l = l1 ++ (p, s) :: l2 /\
    (forall e, In e l1 -> score_lt s (snd e)) /\
    (forall e, In e l2 -> score_le s (snd e)).

(** The record [(global_best, global_best_score)] is what the evaluations
    [l], and nothing else, give: the sentinel while no score was below
    [+inf], the first minimal entry otherwise. *)
Definition is_best (l : list (Position * score)) (o : SwarmAoT) : Prop :=
  match global_best o with
  | None =>
      global_best_score o = PInf /\ forall e, In e l -> snd e = PInf
  | Some p => first_min l p (global_best_score o)
  end.

Definition all_before (iteration agent_idx : nat) (tr : list event) : Prop :=
  forall ev, In ev tr -> before_step iteration agent_idx ev = true.

(** The trace of a run that raised [e]: the events of the steps before some
    step, whose calls all returned, then the events of that step up to the
    call that raised, either its evaluation or, after the evaluation and
    the line it may have printed, its update. *)
Inductive raised_trace (e : Exn) : list event -> Prop :=
| raised_by_heuristic tr0 iteration agent_idx position :
    all_before iteration agent_idx tr0 ->
    Forall returns tr0 ->
    raised_trace e
      (tr0 ++ [EvHeuristic iteration agent_idx position (Raised e)])
| raised_by_update_fn tr0 iteration agent_idx position s l :
    all_before iteration agent_idx tr0 ->
    Forall returns tr0 ->
    l = [] \/ l = [EvPrint iteration agent_idx s] ->
    raised_trace e
      (tr0 ++ EvHeuristic iteration agent_idx position (Returned s)
           :: l ++ [EvUpdate iteration agent_idx position (Raised e)]).

(** Two states of two runs that differ at most in the ambient state, and
    there only up to [R]. *)
Definition agree (R : World -> World -> Prop) (space : Space)
    (st1 st2 : state) : Prop :=
  self st1 = self st2 /\ trace st1 = trace st2 /\
  problem_space (self st1) = space /\ R (world st1) (world st2).

(** The states an object goes through in its life: it is constructed, then
    [optimize] is called any number of times, returning or raising, while
    the rest of the program may change the ambient state between calls. *)
Inductive reachable : state -> Prop :=
| reachable_start n space sw w :
    reachable (start (constructed n space sw) w)
| reachable_optimize iterations st :
    reachable st -> reachable (snd (optimize iterations st))
| reachable_ambient st w :
    reachable st ->
    reachable {| self := self st; world := w; trace := trace st |}.

(** *** The whole program *)

(** [SwarmAoT(n, space, heuristic, update_fn).optimize(iterations)], as in
    lines 103 and 104: what the caller gets and what was printed. *)
Definition run (n : Z) (space : Space) (iterations : Z) (w : World)
  : outcome Exn (option Position * score) * list notification :=
  match init n space w with
  | (Raised e, _) => (Raised e, [])
  | (Returned o, w') =>
      let rs := optimize iterations (start o w') in
      (fst rs, notifications (trace (snd rs)))
  end.

End SwarmAoT.

Arguments mkSwarmAoT {Position Space}.
Arguments num_agents {Position Space}.
Arguments problem_space {Position Space}.
Arguments swarm {Position Space}.
Arguments global_best {Position Space}.
Arguments global_best_score {Position Space}.
Arguments EvHeuristic {Position Exn}.
Arguments EvPrint {Position Exn}.
Arguments EvUpdate {Position Exn}.
Arguments mkState {Position Space World Exn}.
Arguments self {Position Space World Exn}.
Arguments world {Position Space World Exn}.
Arguments trace {Position Space World Exn}.
Arguments start {Position Space World Exn}.
Arguments sample {Position Space World Exn}.
Arguments _initialize_swarm {Position Space World Exn}.
Arguments init {Position Space World Exn}.
Arguments step {Position Space World Exn}.
Arguments for_enumerate {Position Space World Exn}.
Arguments round {Position Space World Exn}.
Arguments for_range {Position Space World Exn}.
Arguments optimize {Position Space World Exn}.
Arguments with_best {Position Space}.
Arguments with_swarm {Position Space}.
Arguments evaluations {Position Exn}.
Arguments scores {Position Exn}.
Arguments notifications {Position Exn}.
Arguments raises {Position Exn}.
Arguments returns {Position Exn}.
Arguments event_step {Position Exn}.
Arguments before_step {Position Exn}.
Arguments evaluations_before {Position Exn}.
Arguments first_min {Position}.
Arguments is_best {Position Space}.
Arguments constructed {Position Space}.
Arguments reachable {Position Space World Exn}.
Arguments reachable_start {Position Space World Exn}.
Arguments reachable_optimize {Position Space World Exn}.
Arguments reachable_ambient {Position Space World Exn}.
Arguments agree {Position Space World Exn}.
Arguments all_before {Position Exn}.
Arguments raised_trace {Position Exn}.
Arguments run {Position Space World Exn}.

(** * Collaborators of the examples *)

Inductive py_exception : Type :=
| IndexError
| ValueError.

Definition score_of_Z (x : Z) : score := Fin (inject_Z x).

(** A heuristic that only computes. *)
Definition pure_heuristic {Position World Exn : Type} (h : Position -> score)
  : Position -> M Exn World score :=
  fun p w => (Returned (h p), w).

(** An update function that only computes. *)
Definition pure_update_fn {Position Space World Exn : Type}
    (u : Position -> Space -> Position)
  : Position -> Space -> M Exn World Position :=
  fun p space w => (Returned (u p space), w).

(** An update function that raises [e]. *)
Definition failing_update_fn {Position Space World Exn : Type} (e : Exn)
  : Position -> Space -> M Exn World Position :=
  fun _ _ w => (Raised e, w).

(** An ambient state for the examples: the state of the random generator
    and a clock. *)
Definition ambient : Type := nat * nat.

(** [random.choice] on a list: [IndexError] on the empty list, else the
    element at an index drawn from the generator. *)
Definition rng_choice (seq : list Z) : M py_exception ambient Z :=
  fun w =>
    match seq with
    | [] => (Raised IndexError, w)
    | x :: _ => (Returned (nth (fst w mod length seq) seq x),
                 (S (fst w), snd w))
    end.

(** A heuristic that reads nothing of the ambient state and lets the clock
    tick. *)
Definition clocked_heuristic (x : Z) : M py_exception ambient score :=
  fun w => (Returned (score_of_Z x), (fst w, S (snd w))).

(** A random walk: a step of -1, 0 or 1 drawn from the generator. *)
Definition rng_update_fn (x : Z) (space : list Z)
  : M py_exception ambient Z :=
  fun w => (Returned (x + Z.of_nat (fst w mod 3) - 1)%Z, (S (fst w), snd w)).

(** The two runs agree on the generator. *)
Definition same_seed (w1 w2 : ambient) : Prop := fst w1 = fst w2.

(** Scenario A: one agent at 5, [heuristic(x) = x], [update_fn(x, _) = x]. *)
Definition heuristic_A : Z -> M py_exception unit score :=
  pure_heuristic score_of_Z.
Definition update_fn_A : Z -> list Z -> M py_exception unit Z :=
  pure_update_fn (fun x _ => x).
Definition state_A : state Z (list Z) unit py_exception :=
  start (constructed 1 [5%Z] [5%Z]) tt.

(** Two agents at 3 and 1 in the space [[2; 3; 4]], generator at 7. *)
Definition state_B : state Z (list Z) ambient py_exception :=
  start (constructed 2 [2; 3; 4]%Z [3; 1]%Z) (7, 0)%nat.

(** One agent at 5, [heuristic(x) = x] and an [update_fn] that raises. *)
Definition failed_run
  : outcome py_exception (option Z * score)
    * state Z (list Z) unit py_exception :=
  optimize heuristic_A (failing_update_fn ValueError) 1 state_A.

(** * Events of a later call

    [optimize] numbers its iterations from 0 at every call: the events of a
    call made after [d] iterations are those of the later iterations of one
    long call, with [d] added to the iteration. *)

Definition shift_iteration {Position Exn : Type} (d : nat)
    (ev : event Position Exn) : event Position Exn :=
  match ev with
  | EvHeuristic iteration agent_idx p r =>
      EvHeuristic (iteration + d) agent_idx p r
  | EvPrint iteration agent_idx s => EvPrint (iteration + d) agent_idx s
  | EvUpdate iteration agent_idx p r =>
      EvUpdate (iteration + d) agent_idx p r
  end.

(** The scores printed, in order. *)
Definition printed_scores {Position Exn : Type}
    (tr : list (event Position Exn)) : list score :=
  map snd (notifications tr).

(** Each score is strictly less than the one before it. *)
Fixpoint strictly_decreasing (l : list score) : Prop :=
  match l with
  | [] => True
  | s :: l' =>
      match l' with
      | [] => True
      | s' :: _ => score_lt s' s
      end /\ strictly_decreasing l'
  end.

(** * The example program (lines 79 to 107) *)

Module Main.

(** [range(start, stop)] *)
Record py_range : Type := mkRange {
  range_start : Z;
  range_stop : Z
}.

(** The elements a range yields. *)
Definition range_list (r : py_range) : list Z :=
  map (fun i => (range_start r + Z.of_nat i)%Z)
      (seq 0 (Z.to_nat (range_stop r - range_start r))).

(** [max(iterable)] and [min(iterable)] on integers: [ValueError] on an
    empty iterable. *)
Definition py_max (l : list Z) : outcome py_exception Z :=
  match l with
  | [] => Raised ValueError
  | x :: l' => Returned (fold_left Z.max l' x)
  end.

Definition py_min (l : list Z) : outcome py_exception Z :=
  match l with
  | [] => Raised ValueError
  | x :: l' => Returned (fold_left Z.min l' x)
  end.

(** A value computed without the ambient state, or the exception. *)
Definition lift {World A : Type} (r : outcome py_exception A)
  : M py_exception World A :=
  fun w => (r, w).

(** Line 81. *)
Definition problem_space : py_range := mkRange 2 100.

Section Program.

Variable World : Type.

(** [int(np.sqrt(n))]: numpy's square root in binary64, truncated.  It is
    a parameter; what the properties need of it is stated where they do. *)
Variable int_sqrt : Z -> Z.

(** [random.randint] and [random.choice]. *)
Variable randint : Z -> Z -> M py_exception World Z.
Variable choice : py_range -> M py_exception World Z.

(** [for i in range(i, i + count): if n % i == 0: return False], then
    [return True].  The divisors tried are at least 2, where Python's [%]
    is [Z.modulo]. *)
Fixpoint no_divisor (count : nat) (i n : Z) : bool :=
  match count with
  | O => true
  | S count' =>
      if (n mod i =? 0)%Z then false else no_divisor count' (i + 1)%Z n
  end.

(** Lines 84 to 90. *)
Definition is_prime (n : Z) : bool :=
  if (n <? 2)%Z then false
  else no_divisor (Z.to_nat (int_sqrt n + 1 - 2)) 2 n.

(** Lines 92 to 94. *)
Definition heuristic (n : Z) : score :=
  if is_prime n then score_of_Z (-1) else score_of_Z n.

(** Lines 97 to 100.  In [max(min(new_position, max(space)), min(space))]
    the arguments are evaluated from left to right: [max(space)] first. *)
Definition update_fn (position : Z) (space : py_range)
  : M py_exception World Z :=
  let! step := randint (-5) 5 in
  let new_position := (position + step)%Z in
  let! hi := lift (py_max (range_list space)) in
  let! lo := lift (py_min (range_list space)) in
  ret (Z.max (Z.min new_position hi) lo).

(** Lines 103 and 104: the result and the lines [optimize] printed. *)
Definition main (w : World)
  : outcome py_exception (option Z * score) * list notification :=
  run (pure_heuristic heuristic) update_fn choice 10 problem_space 50 w.

End Program.

Arguments update_fn {World} randint position space.
Arguments main {World} int_sqrt randint choice w.

(** A generator for the examples, on the ambient state of the examples. *)
Definition rng_randint (a b : Z) : M py_exception ambient Z :=
  fun w =>
    (Returned (a + Z.of_nat (fst w mod Z.to_nat (b - a + 1)))%Z,
     (S (fst w), snd w)).

Definition rng_range_choice (r : py_range) : M py_exception ambient Z :=
  rng_choice (range_list r).

(** Two agents at 3 and 4 in [range(2, 5)], generator at 7. *)
Definition state_C : state Z py_range ambient py_exception :=
  start (constructed 2 (mkRange 2 5) [3; 4]%Z) (7, 0)%nat.

End Main.


(** * The order on scores *)

Lemma Qltb_lt (x y : Q) : Qltb x y = true <-> (x < y)%Q.
Proof. unfold Qltb, Qlt. apply Z.ltb_lt. Qed.

Lemma Qltb_ge (x y : Q) : Qltb x y = false <-> (y <= x)%Q.
Proof. unfold Qltb, Qle. apply Z.ltb_ge. Qed.

Ltac score_order :=
  unfold score_lt, score_le in *;
  repeat match goal with s : score |- _ => destruct s end;
  simpl in *; try congruence;
  rewrite ?Qltb_lt, ?Qltb_ge in *;
  eauto using Qle_refl, Qlt_le_weak, Qle_trans, Qlt_le_trans, Qle_lt_trans,
    Qlt_trans, Qlt_irrefl.

Lemma score_le_refl (a : score) : score_le a a.
Proof. score_order. Qed.

Lemma score_lt_le (a b : score) : score_lt a b -> score_le a b.
Proof. score_order. Qed.

Lemma score_le_trans (a b c : score) :
  score_le a b -> score_le b c -> score_le a c.
Proof. score_order. Qed.

Lemma score_lt_le_trans (a b c : score) :
  score_lt a b -> score_le b c -> score_lt a c.
Proof. score_order. Qed.

Lemma score_lt_trans (a b c : score) :
  score_lt a b -> score_lt b c -> score_lt a c.
Proof. score_order. Qed.

Lemma score_not_lt_PInf (s : score) : score_ltb s PInf = false -> s = PInf.
Proof. destruct s; simpl; congruence. Qed.

Lemma score_lt_irrefl (a : score) : ~ score_lt a a.
Proof. intros H. score_order. apply Qlt_irrefl in H. exact H. Qed.

Lemma score_le_PInf (a : score) : score_le a PInf.
Proof. score_order. Qed.

Lemma score_lt_PInf (a b : score) : score_lt a b -> score_lt a PInf.
Proof. score_order. Qed.

Lemma score_not_lt (a b : score) : score_ltb a b = false <-> score_le b a.
Proof. reflexivity. Qed.

Lemma score_le_Fin (x y : Q) : score_le (Fin x) (Fin y) <-> (x <= y)%Q.
Proof. unfold score_le. simpl. apply Qltb_ge. Qed.

Lemma score_lt_Fin (x y : Q) : score_lt (Fin x) (Fin y) <-> (x < y)%Q.
Proof. unfold score_lt. simpl. apply Qltb_lt. Qed.

(** * The loops, one step at a time *)

Section Properties.

Context {Position Space World Exn : Type}.
Variable heuristic : Position -> M Exn World score.
Variable update_fn : Position -> Space -> M Exn World Position.
Variable choice : Space -> M Exn World Position.

Implicit Types (st : state Position Space World Exn).
Implicit Types (o : SwarmAoT Position Space).
Implicit Types (tr : list (event Position Exn)).

(** What a step does, by the results of its two calls. *)
Lemma step_unfold (it idx : nat) (pos : Position) st :
  step heuristic update_fn it idx pos st =
  match heuristic pos (world st) with
  | (Raised e, w) =>
      (Raised e,
       mkState (self st) w (trace st ++ [EvHeuristic it idx pos (Raised e)]))
  | (Returned s, w1) =>
      let better := score_ltb s (global_best_score (self st)) in
      let o1 := if better then with_best (self st) pos s else self st in
      let tr1 := (trace st ++ [EvHeuristic it idx pos (Returned s)])
                 ++ (if better then [EvPrint it idx s] else []) in
      match update_fn pos (problem_space (self st)) w1 with
      | (Raised e, w2) =>
          (Raised e, mkState o1 w2 (tr1 ++ [EvUpdate it idx pos (Raised e)]))
      | (Returned v, w2) =>
          (Returned tt,
           mkState (with_swarm o1 idx v) w2
                   (tr1 ++ [EvUpdate it idx pos (Returned v)]))
      end
  end.
Proof.
  unfold step, bind, call_heuristic, record_best, call_update_fn,
    modify_self, emit, ret.
  destruct (heuristic pos (world st)) as [[s|e] w1]; simpl; [|reflexivity].
  destruct (score_ltb s (global_best_score (self st))); simpl;
    rewrite ?app_nil_r;
    destruct (update_fn pos (problem_space (self st)) w1) as [[v|e] w2];
    reflexivity.
Qed.

(** ** Invariants of the loops

    A property kept by every step is kept by the loops, whether they return
    or raise. *)

Section Invariant.

Variable P : state Position Space World Exn -> Prop.
Hypothesis step_keeps :
  forall it idx pos st,
    P st -> swarm (self st) !! idx = Some pos ->
    P (snd (step heuristic update_fn it idx pos st)).

Lemma for_enumerate_keeps (fuel it idx : nat) st :
  P st -> P (snd (for_enumerate heuristic update_fn fuel it idx st)).
Proof using step_keeps.
  revert idx st. induction fuel as [|fuel IH]; intros idx st HP; simpl.
  - exact HP.
  - destruct (swarm (self st) !! idx) as [pos|] eqn:Hpos; [|exact HP].
    unfold bind. pose proof (step_keeps it idx pos st HP Hpos) as H1.
    destruct (step heuristic update_fn it idx pos st) as [[[]|e] st1];
      simpl in *; auto.
Qed.

Lemma round_keeps (it : nat) st :
  P st -> P (snd (round heuristic update_fn it st)).
Proof using step_keeps. apply for_enumerate_keeps. Qed.

Lemma for_range_keeps (count it : nat) st :
  P st -> P (snd (for_range heuristic update_fn count it st)).
Proof using step_keeps.
  revert it st. induction count as [|count IH]; intros it st HP; simpl.
  - exact HP.
  - unfold bind. pose proof (round_keeps it st HP) as H1.
    destruct (round heuristic update_fn it st) as [[[]|e] st1];
      simpl in *; auto.
Qed.

Lemma optimize_keeps (iterations : Z) st :
  P st -> P (snd (optimize heuristic update_fn iterations st)).
Proof using step_keeps.
  intros HP. unfold optimize, bind.
  pose proof (for_range_keeps (Z.to_nat iterations) 0 st HP) as H1.
  destruct (for_range heuristic update_fn (Z.to_nat iterations) 0 st)
    as [[[]|e] st1]; simpl in *; auto.
Qed.

End Invariant.

(** What [optimize] returns is the record of the state it ends in. *)
Lemma optimize_returned (iterations : Z) st p s st' :
  optimize heuristic update_fn iterations st = (Returned (p, s), st') ->
  p = global_best (self st') /\ s = global_best_score (self st').
Proof.
  unfold optimize, bind.
  destruct (for_range heuristic update_fn (Z.to_nat iterations) 0 st)
    as [[[]|e] st1]; intros H; inversion H; subst; auto.
Qed.

(** One more iteration is one more round after the others. *)
Lemma for_range_succ (count it : nat) st :
  for_range heuristic update_fn (S count) it st =
  (for_range heuristic update_fn count it >>
   round heuristic update_fn (it + count)) st.
Proof.
  revert it st. induction count as [|count IH]; intros it st.
  - simpl. unfold bind, ret. rewrite Nat.add_0_r.
    destruct (round heuristic update_fn it st) as [[[]|e] st1]; reflexivity.
  - change (for_range heuristic update_fn (S (S count)) it st)
      with ((round heuristic update_fn it >>
             for_range heuristic update_fn (S count) (S it)) st).
    simpl for_range at 2. unfold bind at 1 2 3.
    destruct (round heuristic update_fn it st) as [[[]|e] st1];
      [|reflexivity].
    rewrite IH. unfold bind.
    replace (S it + count)%nat with (it + S count)%nat by lia.
    reflexivity.
Qed.

Lemma optimize_state (iterations : Z) st :
  snd (optimize heuristic update_fn iterations st) =
  snd (for_range heuristic update_fn (Z.to_nat iterations) 0 st).
Proof.
  unfold optimize, bind.
  destruct (for_range heuristic update_fn (Z.to_nat iterations) 0 st)
    as [[[]|e] st1]; reflexivity.
Qed.

(** ** The best score never goes up *)

Lemma step_score_le (it idx : nat) (pos : Position) st :
  score_le
    (global_best_score (self (snd (step heuristic update_fn it idx pos st))))
    (global_best_score (self st)).
Proof.
  rewrite step_unfold.
  destruct (heuristic pos (world st)) as [[s|e] w1]; simpl;
    [|apply score_le_refl].
  destruct (score_ltb s (global_best_score (self st))) eqn:Hlt;
    destruct (update_fn pos (problem_space (self st)) w1) as [[v|e] w2];
    simpl; auto using score_le_refl, score_lt_le.
Qed.

Lemma round_score_le (it : nat) st :
  score_le (global_best_score (self (snd (round heuristic update_fn it st))))
           (global_best_score (self st)).
Proof.
  apply (round_keeps
           (fun st' => score_le (global_best_score (self st'))
                                (global_best_score (self st)))).
  - intros it' idx pos st' H _.
    eapply score_le_trans; [apply step_score_le | exact H].
  - apply score_le_refl.
Qed.

Lemma optimize_score_le (k : Z) st :
  score_le
    (global_best_score (self (snd (optimize heuristic update_fn k st))))
    (global_best_score (self st)).
Proof.
  apply (optimize_keeps
           (fun st' => score_le (global_best_score (self st'))
                                (global_best_score (self st)))).
  - intros it' idx pos st' H _.
    eapply score_le_trans; [apply step_score_le | exact H].
  - apply score_le_refl.
Qed.

(** C2: the best score after [k] iterations is at most the best score after
    [k - 1] iterations of the same run, no step of the loop raises it, and a
    call of [optimize] ends with a best score at most the one it began
    with. *)
Theorem global_best_score_monotone (k : Z) st :
  (1 <= k)%Z ->
  score_le
    (global_best_score (self (snd (optimize heuristic update_fn k st))))
    (global_best_score (self (snd (optimize heuristic update_fn (k - 1) st))))
  /\ (forall it idx pos st1,
        score_le
          (global_best_score
             (self (snd (step heuristic update_fn it idx pos st1))))
          (global_best_score (self st1)))
  /\ score_le
       (global_best_score (self (snd (optimize heuristic update_fn k st))))
       (global_best_score (self st)).
Proof.
  intros Hk. split; [|split].
  - rewrite !optimize_state.
    replace (Z.to_nat k) with (S (Z.to_nat (k - 1))) by lia.
    rewrite for_range_succ. unfold bind.
    destruct (for_range heuristic update_fn (Z.to_nat (k - 1)) 0 st)
      as [[[]|e] st1]; simpl.
    + apply round_score_le.
    + apply score_le_refl.
  - intros. apply step_score_le.
  - apply optimize_score_le.
Qed.

(** ** The record is the first minimum of the evaluations *)

Lemma evaluations_app tr1 tr2 :
  evaluations (tr1 ++ tr2) = evaluations tr1 ++ evaluations tr2.
Proof. unfold evaluations. apply omap_app. Qed.

Lemma notifications_app tr1 tr2 :
  notifications (tr1 ++ tr2) = notifications tr1 ++ notifications tr2.
Proof. unfold notifications. apply omap_app. Qed.

Lemma is_best_improve (l : list (Position * score)) o pos s :
  is_best l o -> score_lt s (global_best_score o) ->
  is_best (l ++ [(pos, s)]) (with_best o pos s).
Proof.
  unfold is_best. simpl. intros Hb Hlt.
  exists l, []. split; [reflexivity|]. split; [|intros e []].
  intros e He. destruct (global_best o) as [p|].
  - destruct Hb as (l1 & l2 & -> & H1 & H2).
    apply in_app_or in He. destruct He as [He|[<-|He]].
    + eapply score_lt_trans; [exact Hlt | auto].
    + exact Hlt.
    + eapply score_lt_le_trans; [exact Hlt | auto].
  - destruct Hb as [Hs Hall]. rewrite (Hall e He). rewrite <- Hs. exact Hlt.
Qed.

Lemma is_best_keep (l : list (Position * score)) o pos s :
  is_best l o -> score_ltb s (global_best_score o) = false ->
  is_best (l ++ [(pos, s)]) o.
Proof.
  unfold is_best. intros Hb Hge. destruct (global_best o) as [p|].
  - destruct Hb as (l1 & l2 & -> & H1 & H2).
    exists l1, (l2 ++ [(pos, s)]). split.
    + rewrite <- app_assoc. reflexivity.
    + split; [exact H1|]. intros e He.
      apply in_app_or in He. destruct He as [He|[<-|[]]]; auto.
  - destruct Hb as [Hs Hall]. split; [exact Hs|].
    intros e He. apply in_app_or in He. destruct He as [He|[<-|[]]]; auto.
    simpl. rewrite Hs in Hge. apply score_not_lt_PInf. exact Hge.
Qed.

Lemma step_keeps_best (it idx : nat) (pos : Position) st :
  is_best (evaluations (trace st)) (self st) ->
  is_best (evaluations (trace (snd (step heuristic update_fn it idx pos st))))
          (self (snd (step heuristic update_fn it idx pos st))).
Proof.
  intros Hb. rewrite step_unfold.
  destruct (heuristic pos (world st)) as [[s|e] w1]; simpl.
  - assert (Hb1 :
      is_best
        (evaluations
           ((trace st ++ [EvHeuristic it idx pos (Returned s)])
            ++ (if score_ltb s (global_best_score (self st))
                then [EvPrint it idx s] else [])))
        (if score_ltb s (global_best_score (self st))
         then with_best (self st) pos s else self st)).
    { destruct (score_ltb s (global_best_score (self st))) eqn:Hlt;
        rewrite !evaluations_app; simpl; rewrite app_nil_r.
      - apply is_best_improve; assumption.
      - apply is_best_keep; assumption. }
    destruct (update_fn pos (problem_space (self st)) w1) as [[v|e] w2];
      simpl; rewrite evaluations_app; simpl; rewrite app_nil_r.
    + destruct (score_ltb s (global_best_score (self st))); exact Hb1.
    + exact Hb1.
  - rewrite evaluations_app. simpl. rewrite app_nil_r. exact Hb.
Qed.

Lemma constructed_is_best (n : Z) (space : Space) (sw : list Position) :
  is_best [] (constructed n space sw).
Proof. split; [reflexivity | intros e []]. Qed.

(** After [optimize], returned or raised, on a new object. *)
Lemma optimize_is_best (n k : Z) (space : Space) (sw : list Position)
    (w : World) :
  let st' := snd (optimize heuristic update_fn k
                    (start (constructed n space sw) w)) in
  is_best (evaluations (trace st')) (self st').
Proof.
  apply (optimize_keeps (fun st => is_best (evaluations (trace st)) (self st))).
  - intros it idx pos st H _. apply step_keeps_best. exact H.
  - apply constructed_is_best.
Qed.

Lemma is_best_is_min (l : list (Position * score)) o :
  is_best l o -> l <> [] -> is_min (global_best_score o) (map snd l).
Proof.
  unfold is_best, is_min. intros Hb Hne. destruct (global_best o) as [p|].
  - destruct Hb as (l1 & l2 & -> & H1 & H2). split.
    + rewrite map_app. apply in_or_app. right. left. reflexivity.
    + intros s' Hs'. apply in_map_iff in Hs'. destruct Hs' as (e & <- & He).
      apply in_app_or in He. destruct He as [He|[<-|He]].
      * apply score_lt_le. auto.
      * apply score_le_refl.
      * auto.
  - destruct Hb as [Hs Hall]. rewrite Hs. split.
    + destruct l as [|e l]; [congruence|]. left. apply Hall. left. reflexivity.
    + intros s' Hs'. apply in_map_iff in Hs'. destruct Hs' as (e & <- & He).
      rewrite (Hall e He). apply score_le_refl.
Qed.

(** ** The swarm keeps its length *)

Lemma step_length (it idx : nat) (pos : Position) st :
  length (swarm (self (snd (step heuristic update_fn it idx pos st)))) =
  length (swarm (self st)).
Proof.
  rewrite step_unfold.
  destruct (heuristic pos (world st)) as [[s|e] w1]; simpl; [|reflexivity].
  destruct (update_fn pos (problem_space (self st)) w1) as [[v|e] w2];
    destruct (score_ltb s (global_best_score (self st))); simpl;
    rewrite ?length_insert; reflexivity.
Qed.

Lemma step_num_agents (it idx : nat) (pos : Position) st :
  num_agents (self (snd (step heuristic update_fn it idx pos st))) =
  num_agents (self st).
Proof.
  rewrite step_unfold.
  destruct (heuristic pos (world st)) as [[s|e] w1]; simpl; [|reflexivity].
  destruct (update_fn pos (problem_space (self st)) w1) as [[v|e] w2];
    destruct (score_ltb s (global_best_score (self st))); reflexivity.
Qed.

(** The fuel given by [round] is never what ends the loop: any fuel that
    covers the rest of the list gives the same run. *)
Lemma for_enumerate_fuel (fuel1 fuel2 it idx : nat) st :
  (length (swarm (self st)) <= idx + fuel1)%nat ->
  (length (swarm (self st)) <= idx + fuel2)%nat ->
  for_enumerate heuristic update_fn fuel1 it idx st =
  for_enumerate heuristic update_fn fuel2 it idx st.
Proof.
  revert fuel2 idx st.
  induction fuel1 as [|fuel1 IH]; intros fuel2 idx st H1 H2.
  - destruct fuel2 as [|fuel2]; simpl; [reflexivity|].
    rewrite (proj2 (lookup_ge_None (swarm (self st)) idx)) by lia.
    reflexivity.
  - simpl. destruct (swarm (self st) !! idx) as [pos|] eqn:Hpos.
    + pose proof (lookup_lt_Some _ _ _ Hpos) as Hlt.
      destruct fuel2 as [|fuel2]; [lia|]. simpl. rewrite Hpos.
      unfold bind. pose proof (step_length it idx pos st) as Hlen.
      destruct (step heuristic update_fn it idx pos st) as [[[]|e] st1];
        [|reflexivity].
      simpl in Hlen. apply IH; lia.
    + destruct fuel2 as [|fuel2]; simpl; [reflexivity|].
      rewrite Hpos. reflexivity.
Qed.

Lemma sample_length (n : nat) (space : Space) (w w' : World)
    (l : list Position) :
  sample choice n space w = (Returned l, w') -> length l = n.
Proof.
  revert w w' l. induction n as [|n IH]; intros w w' l; simpl.
  - unfold ret. intros H. inversion H. reflexivity.
  - unfold bind, ret. destruct (choice space w) as [[p|e] w1]; [|discriminate].
    destruct (sample choice n space w1) as [[ps|e] w2] eqn:Hs; [|discriminate].
    intros H. inversion H. subst. simpl. f_equal. eapply IH. exact Hs.
Qed.

Lemma sample_returns (n : nat) (space : Space) (w : World) :
  (forall w1, exists p w2, choice space w1 = (Returned p, w2)) ->
  exists l w', sample choice n space w = (Returned l, w').
Proof.
  intros Hc. revert w. induction n as [|n IH]; intros w; simpl.
  - exists [], w. reflexivity.
  - unfold bind, ret. destruct (Hc w) as (p & w1 & ->).
    destruct (IH w1) as (l & w2 & ->). eauto.
Qed.

Lemma init_returned (n : Z) (space : Space) (w w' : World) o :
  init choice n space w = (Returned o, w') ->
  exists sw, o = constructed n space sw /\ length sw = Z.to_nat n.
Proof.
  unfold init, _initialize_swarm, bind, ret.
  destruct (sample choice (Z.to_nat n) space w) as [[sw|e] w1] eqn:Hs;
    [|discriminate].
  intros H. inversion H. subst. exists sw. split; [reflexivity|].
  eapply sample_length. exact Hs.
Qed.

Lemma optimize_length (k : Z) st :
  length (swarm (self (snd (optimize heuristic update_fn k st)))) =
  length (swarm (self st)).
Proof.
  apply (optimize_keeps
           (fun st' => length (swarm (self st')) = length (swarm (self st)))).
  - intros it idx pos st' H _. rewrite step_length. exact H.
  - reflexivity.
Qed.

Lemma round_length (it : nat) st :
  length (swarm (self (snd (round heuristic update_fn it st)))) =
  length (swarm (self st)).
Proof.
  apply (round_keeps
           (fun st' => length (swarm (self st')) = length (swarm (self st)))).
  - intros it' idx pos st' H _. rewrite step_length. exact H.
  - reflexivity.
Qed.

(** C6: for [num_agents > 0] the constructor, when the sampling does not
    raise, returns an object whose swarm has exactly [num_agents] entries;
    a step, a round and a whole call of [optimize] leave the length of the
    swarm as it was, returning or raising, so the swarm of a constructed
    object has [num_agents] entries after any call of [optimize]. *)
Theorem swarm_length_invariant (n : Z) (space : Space) :
  (0 < n)%Z ->
  (forall w o w',
     init choice n space w = (Returned o, w') ->
     Z.of_nat (length (swarm o)) = n /\ num_agents o = n)
  /\ (forall w,
        (forall w1, exists p w2, choice space w1 = (Returned p, w2)) ->
        exists o w', init choice n space w = (Returned o, w'))
  /\ (forall it idx pos st,
        length (swarm (self (snd (step heuristic update_fn it idx pos st)))) =
        length (swarm (self st)))
  /\ (forall it st,
        length (swarm (self (snd (round heuristic update_fn it st)))) =
        length (swarm (self st)))
  /\ (forall w o w' k,
        init choice n space w = (Returned o, w') ->
        Z.of_nat
          (length
             (swarm (self (snd (optimize heuristic update_fn k (start o w'))))))
        = n).
Proof.
  intros Hn. split; [|split; [|split; [|split]]].
  - intros w o w' H. apply init_returned in H.
    destruct H as (sw & -> & Hlen). simpl. split; [lia | reflexivity].
  - intros w Hc. unfold init, _initialize_swarm, bind, ret.
    destruct (sample_returns (Z.to_nat n) space w Hc) as (l & w' & ->). eauto.
  - intros. apply step_length.
  - intros. apply round_length.
  - intros w o w' k H. rewrite optimize_length. simpl.
    apply init_returned in H. destruct H as (sw & -> & Hlen). simpl. lia.
Qed.

(** ** Runs that return *)

Lemma step_returned (it idx : nat) (pos : Position) st st1 :
  step heuristic update_fn it idx pos st = (Returned tt, st1) ->
  exists s w1 v w2,
    heuristic pos (world st) = (Returned s, w1) /\
    update_fn pos (problem_space (self st)) w1 = (Returned v, w2) /\
    st1 =
    mkState
      (with_swarm (if score_ltb s (global_best_score (self st))
                   then with_best (self st) pos s else self st) idx v)
      w2
      (((trace st ++ [EvHeuristic it idx pos (Returned s)])
        ++ (if score_ltb s (global_best_score (self st))
            then [EvPrint it idx s] else []))
       ++ [EvUpdate it idx pos (Returned v)]).
Proof.
  rewrite step_unfold.
  destruct (heuristic pos (world st)) as [[s|e] w1] eqn:Hh; [|discriminate].
  simpl. destruct (update_fn pos (problem_space (self st)) w1)
    as [[v|e] w2] eqn:Hu; [|discriminate].
  intros H. injection H as <-. exists s, w1, v, w2. auto.
Qed.

Lemma step_returned_count (it idx : nat) (pos : Position) st st1 :
  step heuristic update_fn it idx pos st = (Returned tt, st1) ->
  length (evaluations (trace st1)) = S (length (evaluations (trace st))).
Proof.
  intros H. apply step_returned in H.
  destruct H as (s & w1 & v & w2 & _ & _ & ->). simpl.
  rewrite !evaluations_app, !length_app. simpl.
  destruct (score_ltb s (global_best_score (self st))); simpl; lia.
Qed.

Lemma for_enumerate_returned_count (fuel it idx : nat) st st' :
  for_enumerate heuristic update_fn fuel it idx st = (Returned tt, st') ->
  (length (swarm (self st)) <= idx + fuel)%nat ->
  length (evaluations (trace st')) =
  (length (evaluations (trace st)) + (length (swarm (self st)) - idx))%nat.
Proof.
  revert idx st. induction fuel as [|fuel IH]; intros idx st; simpl.
  - intros H Hf. inversion H. subst. lia.
  - destruct (swarm (self st) !! idx) as [pos|] eqn:Hpos.
    + unfold bind. pose proof (lookup_lt_Some _ _ _ Hpos) as Hlt.
      pose proof (step_length it idx pos st) as Hlen.
      pose proof (step_returned_count it idx pos st) as Hcnt.
      destruct (step heuristic update_fn it idx pos st) as [[[]|e] st1];
        [|discriminate].
      intros H Hf. simpl in Hlen. apply IH in H; [|lia].
      rewrite H, (Hcnt st1 eq_refl), Hlen. lia.
    + apply lookup_ge_None in Hpos. intros H Hf. inversion H. subst. lia.
Qed.

Lemma for_range_returned_count (count it : nat) st st' :
  for_range heuristic update_fn count it st = (Returned tt, st') ->
  length (evaluations (trace st')) =
  (length (evaluations (trace st)) + count * length (swarm (self st)))%nat.
Proof.
  revert it st. induction count as [|count IH]; intros it st; simpl.
  - unfold ret. intros H. inversion H. subst. lia.
  - unfold bind. pose proof (round_length it st) as Hlen.
    destruct (round heuristic update_fn it st) as [[[]|e] st1] eqn:Hr;
      [|discriminate].
    intros H. apply IH in H. simpl in Hlen. rewrite H, Hlen.
    unfold round in Hr. apply for_enumerate_returned_count in Hr; [|lia].
    rewrite Hr. lia.
Qed.

Lemma step_returns (it idx : nat) (pos : Position) st :
  (forall p w0, exists s w1, heuristic p w0 = (Returned s, w1)) ->
  (forall p sp w0, exists v w1, update_fn p sp w0 = (Returned v, w1)) ->
  exists st1, step heuristic update_fn it idx pos st = (Returned tt, st1).
Proof.
  intros Hh Hu. rewrite step_unfold.
  destruct (Hh pos (world st)) as (s & w1 & ->). simpl.
  destruct (Hu pos (problem_space (self st)) w1) as (v & w2 & ->). eauto.
Qed.

Lemma for_enumerate_returns (fuel it idx : nat) st :
  (forall p w0, exists s w1, heuristic p w0 = (Returned s, w1)) ->
  (forall p sp w0, exists v w1, update_fn p sp w0 = (Returned v, w1)) ->
  exists st1,
    for_enumerate heuristic update_fn fuel it idx st = (Returned tt, st1).
Proof.
  intros Hh Hu. revert idx st.
  induction fuel as [|fuel IH]; intros idx st; simpl; [eauto|].
  destruct (swarm (self st) !! idx) as [pos|]; [|eauto].
  unfold bind. destruct (step_returns it idx pos st Hh Hu) as (st1 & ->).
  apply IH.
Qed.

Lemma for_range_returns (count it : nat) st :
  (forall p w0, exists s w1, heuristic p w0 = (Returned s, w1)) ->
  (forall p sp w0, exists v w1, update_fn p sp w0 = (Returned v, w1)) ->
  exists st1, for_range heuristic update_fn count it st = (Returned tt, st1).
Proof.
  intros Hh Hu. revert it st.
  induction count as [|count IH]; intros it st; simpl; [unfold ret; eauto|].
  unfold bind, round.
  destruct (for_enumerate_returns (length (swarm (self st))) it 0 st Hh Hu)
    as (st1 & ->).
  apply IH.
Qed.

Lemma optimize_returns (k : Z) st :
  (forall p w0, exists s w1, heuristic p w0 = (Returned s, w1)) ->
  (forall p sp w0, exists v w1, update_fn p sp w0 = (Returned v, w1)) ->
  exists p s st', optimize heuristic update_fn k st = (Returned (p, s), st').
Proof.
  intros Hh Hu. unfold optimize, bind.
  destruct (for_range_returns (Z.to_nat k) 0 st Hh Hu) as (st1 & ->). eauto.
Qed.

Lemma reachable_is_best st :
  reachable heuristic update_fn st ->
  is_best (evaluations (trace st)) (self st).
Proof.
  induction 1 as [n space sw w | k st Hst IH | st w Hst IH].
  - apply constructed_is_best.
  - apply (optimize_keeps
             (fun st => is_best (evaluations (trace st)) (self st)));
      [|exact IH].
    intros it idx pos st0 H _. apply step_keeps_best. exact H.
  - exact IH.
Qed.

(** C1: take [optimize] called on a new object for at least one iteration
    with at least one agent.  When the collaborators do not raise, it
    returns; and when it returns, it has computed [iterations * num_agents]
    scores and the score it returns is their minimum: one of them, and at
    most each of them.  On an object that [optimize] has already worked on,
    the score returned is the minimum of the scores computed since the
    object was constructed. *)
Theorem optimize_returns_minimum (n k : Z) (space : Space)
    (sw : list Position) (w : World) :
  (1 <= Z.to_nat k * length sw)%nat ->
  ((forall p w0, exists s w1, heuristic p w0 = (Returned s, w1)) ->
   (forall p sp w0, exists v w1, update_fn p sp w0 = (Returned v, w1)) ->
   exists p s st',
     optimize heuristic update_fn k (start (constructed n space sw) w) =
     (Returned (p, s), st'))
  /\ (forall p s st',
        optimize heuristic update_fn k (start (constructed n space sw) w) =
        (Returned (p, s), st') ->
        length (scores (trace st')) = (Z.to_nat k * length sw)%nat /\
        is_min s (scores (trace st')))
  /\ (forall st p s st',
        reachable heuristic update_fn st ->
        optimize heuristic update_fn k st = (Returned (p, s), st') ->
        scores (trace st') <> [] ->
        is_min s (scores (trace st'))).
Proof.
  intros Hwork. split; [apply optimize_returns|].
  assert (Hlife : forall st p s st',
            reachable heuristic update_fn st ->
            optimize heuristic update_fn k st = (Returned (p, s), st') ->
            scores (trace st') <> [] ->
            is_min s (scores (trace st'))).
  { intros st p s st' Hst Hopt Hne.
    pose proof (reachable_is_best _ (reachable_optimize _ _ k st Hst)) as Hb.
    rewrite Hopt in Hb. simpl in Hb.
    apply optimize_returned in Hopt. destruct Hopt as [_ ->].
    apply is_best_is_min; [exact Hb|].
    intros Hnil. apply Hne. unfold scores. rewrite Hnil. reflexivity. }
  split; [|exact Hlife].
  intros p s st' Hopt.
  assert (Hcnt : length (scores (trace st')) = (Z.to_nat k * length sw)%nat).
  { unfold scores. rewrite length_map. unfold optimize, bind in Hopt.
    destruct (for_range heuristic update_fn (Z.to_nat k) 0
                (start (constructed n space sw) w))
      as [[[]|e] st1] eqn:Hr; [|discriminate].
    inversion Hopt. subst. apply for_range_returned_count in Hr.
    rewrite Hr. reflexivity. }
  split; [exact Hcnt|].
  apply (Hlife _ p s st' (reachable_start _ _ n space sw w) Hopt).
  intros Hnil. rewrite Hnil in Hcnt. simpl in Hcnt. lia.
Qed.

(** ** Strict improvement *)

(** C3: in a step whose evaluation gave [s], the record becomes
    [(position, s)], with one line printed, when [s] is strictly less than
    the best score, and is left as it was, with nothing printed, when it is
    not, so in particular when [s] is the best score itself; hence after any
    call of [optimize] on a new object the record is the first, in program
    order, of the evaluations with the minimal score. *)
Theorem best_replaced_on_strict_improvement (it idx : nat) (pos : Position)
    st (s : score) (w1 : World) :
  heuristic pos (world st) = (Returned s, w1) ->
  let st' := snd (step heuristic update_fn it idx pos st) in
  (score_lt s (global_best_score (self st)) ->
     global_best (self st') = Some pos /\
     global_best_score (self st') = s /\
     notifications (trace st') = notifications (trace st) ++ [(it, idx, s)])
  /\ (score_le (global_best_score (self st)) s ->
        global_best (self st') = global_best (self st) /\
        global_best_score (self st') = global_best_score (self st) /\
        notifications (trace st') = notifications (trace st))
  /\ (s = global_best_score (self st) ->
        global_best (self st') = global_best (self st) /\
        global_best_score (self st') = global_best_score (self st))
  /\ (forall n k space sw w,
        let st2 := snd (optimize heuristic update_fn k
                          (start (constructed n space sw) w)) in
        is_best (evaluations (trace st2)) (self st2)).
Proof.
  intros Hh st'.
  assert (Hkeep :
    score_le (global_best_score (self st)) s ->
    global_best (self st') = global_best (self st) /\
    global_best_score (self st') = global_best_score (self st) /\
    notifications (trace st') = notifications (trace st)).
  { unfold score_le. intros Hge. subst st'. rewrite step_unfold, Hh. simpl.
    rewrite Hge.
    destruct (update_fn pos (problem_space (self st)) w1) as [[v|e] w2];
      simpl; rewrite !notifications_app; simpl; rewrite !app_nil_r; auto. }
  split; [|split; [exact Hkeep|split]].
  - unfold score_lt. intros Hlt. subst st'. rewrite step_unfold, Hh. simpl.
    rewrite Hlt.
    destruct (update_fn pos (problem_space (self st)) w1) as [[v|e] w2];
      simpl; rewrite !notifications_app; simpl; rewrite !app_nil_r; auto.
  - intros ->. destruct Hkeep as (H1 & H2 & _); [apply score_le_refl|]. auto.
  - intros. apply optimize_is_best.
Qed.

(** ** Position and score of the record belong together *)

Lemma step_keeps_consistent (h : Position -> outcome Exn score)
    (it idx : nat) (pos : Position) st :
  (forall p w, fst (heuristic p w) = h p) ->
  (forall p, global_best (self st) = Some p ->
             h p = Returned (global_best_score (self st)) /\
             score_lt (global_best_score (self st)) PInf) ->
  let st' := snd (step heuristic update_fn it idx pos st) in
  forall p, global_best (self st') = Some p ->
            h p = Returned (global_best_score (self st')) /\
            score_lt (global_best_score (self st')) PInf.
Proof.
  intros Hpure Hc st'. subst st'. rewrite step_unfold.
  pose proof (Hpure pos (world st)) as Hpos.
  destruct (heuristic pos (world st)) as [[s|e] w1]; simpl in *;
    [|exact Hc].
  destruct (score_ltb s (global_best_score (self st))) eqn:Hlt;
    destruct (update_fn pos (problem_space (self st)) w1) as [[v|e] w2];
    simpl; try exact Hc;
    intros p Hp; injection Hp as <-; split; auto;
    eapply score_lt_PInf; exact Hlt.
Qed.

(** C10: with a heuristic whose result depends on the position only, after
    any call of [optimize] on a new object a best score below [+inf] comes
    with a best position, and the best score is the heuristic's value at the
    best position whenever there is a best position. *)
Theorem best_score_is_score_of_best (h : Position -> outcome Exn score)
    (n k : Z) (space : Space) (sw : list Position) (w : World) :
  (forall p w0, fst (heuristic p w0) = h p) ->
  let st' := snd (optimize heuristic update_fn k
                    (start (constructed n space sw) w)) in
  (score_lt (global_best_score (self st')) PInf ->
     exists p, global_best (self st') = Some p /\
               h p = Returned (global_best_score (self st')))
  /\ (forall p, global_best (self st') = Some p ->
                h p = Returned (global_best_score (self st')) /\
                score_lt (global_best_score (self st')) PInf).
Proof.
  intros Hpure st'.
  assert (Hc : forall p, global_best (self st') = Some p ->
                h p = Returned (global_best_score (self st')) /\
                score_lt (global_best_score (self st')) PInf).
  { subst st'.
    apply (optimize_keeps
             (fun st => forall p, global_best (self st) = Some p ->
                h p = Returned (global_best_score (self st)) /\
                score_lt (global_best_score (self st)) PInf)).
    - intros it idx pos st H _. apply step_keeps_consistent; assumption.
    - simpl. discriminate. }
  split; [|exact Hc].
  intros Hlt. pose proof (optimize_is_best n k space sw w) as Hb.
  fold st' in Hb. unfold is_best in Hb.
  destruct (global_best (self st')) as [p|] eqn:Hp.
  - exists p. split; [reflexivity|]. apply Hc. reflexivity.
  - destruct Hb as [Hs _]. rewrite Hs in Hlt.
    destruct (score_lt_irrefl _ Hlt).
Qed.

(** ** No iteration *)

(** C4: [optimize(0)] makes no call and prints nothing, it returns the
    record as it stands and leaves the whole state, object, world and trace,
    as it was; on a new object what it returns is [(None, +inf)]. *)
Theorem optimize_zero st (n : Z) (space : Space) (sw : list Position)
    (w : World) :
  optimize heuristic update_fn 0 st =
  (Returned (global_best (self st), global_best_score (self st)), st)
  /\ optimize heuristic update_fn 0 (start (constructed n space sw) w) =
     (Returned (None, PInf), start (constructed n space sw) w)
  /\ trace (snd (optimize heuristic update_fn 0
                   (start (constructed n space sw) w))) = [].
Proof. repeat split. Qed.

(** ** The events of a step and of a round *)

Ltac in_cases H :=
  repeat (destruct H as [H|H]; [try discriminate H|]); try contradiction.

Lemma step_events (it idx : nat) (pos : Position) st :
  let rs := step heuristic update_fn it idx pos st in
  exists new,
    trace (snd rs) = trace st ++ new
    /\ problem_space (self (snd rs)) = problem_space (self st)
    /\ (forall j, j <> idx ->
          swarm (self (snd rs)) !! j = swarm (self st) !! j)
    /\ (forall ev, In ev new -> event_step ev = (it, idx))
    /\ (forall it' i q r, In (EvHeuristic it' i q r) new ->
          q = pos /\ exists w, r = fst (heuristic q w))
    /\ (forall it' i q r, In (EvUpdate it' i q r) new ->
          q = pos /\
          exists w, r = fst (update_fn q (problem_space (self st)) w))
    /\ (fst rs = Returned tt -> (idx < length (swarm (self st)))%nat ->
        exists s v l,
          new = EvHeuristic it idx pos (Returned s)
                  :: l ++ [EvUpdate it idx pos (Returned v)]
          /\ (l = [] \/ l = [EvPrint it idx s])
          /\ swarm (self (snd rs)) !! idx = Some v).
Proof.
  intros rs. subst rs. rewrite step_unfold.
  destruct (heuristic pos (world st)) as [[s|e] w1] eqn:Hh; simpl.
  - assert (Hs : Returned s = fst (heuristic pos (world st)))
      by (rewrite Hh; reflexivity).
    destruct (update_fn pos (problem_space (self st)) w1) as [[v|e] w2] eqn:Hu;
      simpl.
    + assert (Hv : Returned v =
                   fst (update_fn pos (problem_space (self st)) w1))
        by (rewrite Hu; reflexivity).
      exists ([EvHeuristic it idx pos (Returned s)]
              ++ (if score_ltb s (global_best_score (self st))
                  then [EvPrint it idx s] else [])
              ++ [EvUpdate it idx pos (Returned v)]).
      split; [rewrite <- !app_assoc; reflexivity|].
      destruct (score_ltb s (global_best_score (self st))); simpl;
        (split; [reflexivity|]);
        (split; [intros j Hj; apply list_lookup_insert_ne; congruence|]);
        (split; [intros ev [<-|[<-|[<-|[]]]] || intros ev [<-|[<-|[]]];
                 reflexivity|]);
        (split; [intros it' i q r H;
                 in_cases H; injection H as <- <- <- <-; eauto|]);
        (split; [intros it' i q r H;
                 in_cases H; injection H as <- <- <- <-; eauto|]);
        intros _ Hidx;
        [exists s, v, [EvPrint it idx s] | exists s, v, []];
        (split; [reflexivity|]); (split; [auto|]);
        apply list_lookup_insert_eq; exact Hidx.
    + assert (Hv : Raised e =
                   fst (update_fn pos (problem_space (self st)) w1))
        by (rewrite Hu; reflexivity).
      exists ([EvHeuristic it idx pos (Returned s)]
              ++ (if score_ltb s (global_best_score (self st))
                  then [EvPrint it idx s] else [])
              ++ [EvUpdate it idx pos (Raised e)]).
      split; [rewrite <- !app_assoc; reflexivity|].
      destruct (score_ltb s (global_best_score (self st))); simpl;
        (split; [reflexivity|]);
        (split; [reflexivity|]);
        (split; [intros ev [<-|[<-|[<-|[]]]] || intros ev [<-|[<-|[]]];
                 reflexivity|]);
        (split; [intros it' i q r H;
                 in_cases H; injection H as <- <- <- <-; eauto|]);
        (split; [intros it' i q r H;
                 in_cases H; injection H as <- <- <- <-; eauto|]);
        discriminate.
  - assert (He : Raised e = fst (heuristic pos (world st)))
      by (rewrite Hh; reflexivity).
    exists [EvHeuristic it idx pos (Raised e)].
    split; [reflexivity|]. split; [reflexivity|]. split; [reflexivity|].
    split; [intros ev [<-|[]]; reflexivity|].
    split; [intros it' i q r [H|[]]; injection H as <- <- <- <-; eauto|].
    split; [intros it' i q r [H|[]]; discriminate H|].
    discriminate.
Qed.

Lemma for_enumerate_events (fuel it idx : nat) st r st' :
  for_enumerate heuristic update_fn fuel it idx st = (r, st') ->
  exists new,
    trace st' = trace st ++ new
    /\ problem_space (self st') = problem_space (self st)
    /\ (forall j, (j < idx)%nat ->
          swarm (self st') !! j = swarm (self st) !! j)
    /\ (forall ev, In ev new ->
          exists i, event_step ev = (it, i) /\ (idx <= i)%nat)
    /\ (forall it' i q r0, In (EvHeuristic it' i q r0) new ->
          swarm (self st) !! i = Some q /\
          exists w, r0 = fst (heuristic q w))
    /\ (forall it' i q r0, In (EvUpdate it' i q r0) new ->
          swarm (self st) !! i = Some q /\
          exists w, r0 = fst (update_fn q (problem_space (self st)) w))
    /\ (r = Returned tt ->
        (length (swarm (self st)) <= idx + fuel)%nat ->
        forall i q, (idx <= i)%nat -> swarm (self st) !! i = Some q ->
        exists s v l1 l2 l3,
          new = l1 ++ EvHeuristic it i q (Returned s)
                   :: l2 ++ EvUpdate it i q (Returned v) :: l3
          /\ (l2 = [] \/ l2 = [EvPrint it i s])
          /\ swarm (self st') !! i = Some v).
Proof.
  revert idx st.
  induction fuel as [|fuel IH]; intros idx st Hrun; simpl in Hrun.
  - injection Hrun as <- <-. exists []. rewrite app_nil_r.
    repeat split; try (intros; contradiction).
    intros _ Hf i q Hi Hq. apply lookup_lt_Some in Hq. lia.
  - destruct (swarm (self st) !! idx) as [pos|] eqn:Hpos.
    2:{ injection Hrun as <- <-. exists []. rewrite app_nil_r.
        repeat split; try (intros; contradiction).
        intros _ Hf i q Hi Hq. apply lookup_lt_Some in Hq.
        apply lookup_ge_None in Hpos. lia. }
    unfold bind in Hrun.
    pose proof (step_events it idx pos st) as Hstep. simpl in Hstep.
    destruct Hstep as (new1 & Htr1 & Hps1 & Hsw1 & Hst1 & Hh1 & Hu1 & Hret1).
    pose proof (lookup_lt_Some _ _ _ Hpos) as Hidx.
    pose proof (step_length it idx pos st) as Hlen1.
    destruct (step heuristic update_fn it idx pos st) as [[[]|e] st1];
      simpl in *.
    2:{ injection Hrun as <- <-. exists new1.
        split; [exact Htr1|]. split; [exact Hps1|].
        split; [intros j Hj; apply Hsw1; lia|].
        split; [intros ev Hev; exists idx; split; [auto|lia]|].
        split; [intros it' i q r0 Hin; destruct (Hh1 _ _ _ _ Hin) as [-> Hw];
                apply Hst1 in Hin; injection Hin as -> ->; auto|].
        split; [intros it' i q r0 Hin; destruct (Hu1 _ _ _ _ Hin) as [-> Hw];
                apply Hst1 in Hin; injection Hin as -> ->; auto|].
        discriminate. }
    destruct (IH (S idx) st1 Hrun)
      as (new2 & Htr2 & Hps2 & Hsw2 & Hst2 & Hh2 & Hu2 & Hret2).
    exists (new1 ++ new2).
    split; [rewrite Htr2, Htr1, app_assoc; reflexivity|].
    split; [congruence|].
    split; [intros j Hj; rewrite Hsw2 by lia; apply Hsw1; lia|].
    split.
    { intros ev Hev. apply in_app_or in Hev. destruct Hev as [Hev|Hev].
      - exists idx. split; [auto|lia].
      - destruct (Hst2 ev Hev) as (i & Hi & Hle). exists i. split; [auto|lia]. }
    split.
    { intros it' i q r0 Hin. apply in_app_or in Hin. destruct Hin as [Hin|Hin].
      - destruct (Hh1 _ _ _ _ Hin) as [-> Hw].
        apply Hst1 in Hin. injection Hin as -> ->. auto.
      - destruct (Hh2 _ _ _ _ Hin) as [Hq Hw]. split; [|exact Hw].
        destruct (Hst2 _ Hin) as (i' & Hi' & Hle). injection Hi' as -> ->.
        rewrite <- Hq. symmetry. apply Hsw1. lia. }
    split.
    { intros it' i q r0 Hin. apply in_app_or in Hin. destruct Hin as [Hin|Hin].
      - destruct (Hu1 _ _ _ _ Hin) as [-> Hw].
        apply Hst1 in Hin. injection Hin as -> ->. auto.
      - destruct (Hu2 _ _ _ _ Hin) as [Hq Hw]. rewrite Hps1 in Hw.
        split; [|exact Hw].
        destruct (Hst2 _ Hin) as (i' & Hi' & Hle). injection Hi' as -> ->.
        rewrite <- Hq. symmetry. apply Hsw1. lia. }
    intros Hr Hf i q Hi Hq.
    destruct (Nat.eq_dec i idx) as [->|Hne].
    + destruct (Hret1 eq_refl Hidx) as (s & v & l & -> & Hl & Hv).
      assert (q = pos) as -> by congruence.
      exists s, v, [], l, new2. split; [|split; [exact Hl|]].
      * simpl. rewrite <- app_assoc. reflexivity.
      * rewrite Hsw2 by lia. exact Hv.
    + destruct (Hret2 Hr ltac:(lia) i q ltac:(lia))
        as (s & v & l1 & l2 & l3 & -> & Hl & Hv).
      { rewrite Hsw1 by exact Hne. exact Hq. }
      exists s, v, (new1 ++ l1), l2, l3.
      split; [|split; [exact Hl | exact Hv]].
      rewrite <- app_assoc. reflexivity.
Qed.

(** C5: in a round, every evaluation and every call of [update_fn] is made
    on the position the agent had when the round began, never on a position
    the round produced; and when the round returns, each agent's position
    was first evaluated, then, with nothing in between but the line printed
    for a new best, given to [update_fn], whose result is the agent's
    position after the round. *)
Theorem evaluation_precedes_update (it : nat) st r st' :
  round heuristic update_fn it st = (r, st') ->
  exists new,
    trace st' = trace st ++ new
    /\ (forall it' i q r0, In (EvHeuristic it' i q r0) new ->
          swarm (self st) !! i = Some q /\
          exists w, r0 = fst (heuristic q w))
    /\ (forall it' i q r0, In (EvUpdate it' i q r0) new ->
          swarm (self st) !! i = Some q /\
          exists w, r0 = fst (update_fn q (problem_space (self st)) w))
    /\ (r = Returned tt ->
        forall i q, swarm (self st) !! i = Some q ->
        exists s v l1 l2 l3,
          new = l1 ++ EvHeuristic it i q (Returned s)
                   :: l2 ++ EvUpdate it i q (Returned v) :: l3
          /\ (l2 = [] \/ l2 = [EvPrint it i s])
          /\ swarm (self st') !! i = Some v).
Proof.
  unfold round. intros Hrun.
  destruct (for_enumerate_events _ _ _ _ _ _ Hrun)
    as (new & Htr & _ & _ & _ & Hh & Hu & Hret).
  exists new. split; [exact Htr|]. split; [exact Hh|]. split; [exact Hu|].
  intros Hr i q Hq. apply (Hret Hr); [lia | lia | exact Hq].
Qed.

(** ** Runs that raise *)

Lemma before_step_spec (it idx : nat) (ev : event Position Exn) :
  before_step it idx ev = true <->
  (fst (event_step ev) < it)%nat \/
  (fst (event_step ev) = it /\ (snd (event_step ev) < idx)%nat).
Proof.
  unfold before_step. destruct (event_step ev) as [i a]. simpl.
  rewrite orb_true_iff, andb_true_iff, !Nat.ltb_lt, Nat.eqb_eq. reflexivity.
Qed.

Lemma before_step_self (it idx : nat) (ev : event Position Exn) :
  event_step ev = (it, idx) -> before_step it idx ev = false.
Proof.
  intros H. apply not_true_iff_false. rewrite before_step_spec, H. simpl. lia.
Qed.

Lemma all_before_next_agent (it idx : nat) tr new :
  all_before it idx tr ->
  (forall ev, In ev new -> event_step ev = (it, idx)) ->
  all_before it (S idx) (tr ++ new).
Proof.
  intros Htr Hnew ev Hev. apply before_step_spec.
  apply in_app_or in Hev. destruct Hev as [Hev|Hev].
  - apply Htr, before_step_spec in Hev. lia.
  - rewrite (Hnew ev Hev). simpl. lia.
Qed.

Lemma all_before_next_iteration (it idx : nat) tr :
  all_before it idx tr -> all_before (S it) 0 tr.
Proof.
  intros Htr ev Hev. apply before_step_spec.
  apply Htr, before_step_spec in Hev. lia.
Qed.

Lemma filter_all_before (it idx : nat) tr :
  all_before it idx tr -> List.filter (before_step it idx) tr = tr.
Proof.
  induction tr as [|ev tr IH]; intros H; simpl; [reflexivity|].
  rewrite (H ev (or_introl eq_refl)). f_equal. apply IH.
  intros ev' Hev'. apply H. right. exact Hev'.
Qed.

Lemma step_raised (it idx : nat) (pos : Position) st e st1 :
  step heuristic update_fn it idx pos st = (Raised e, st1) ->
  trace st1 = trace st ++ [EvHeuristic it idx pos (Raised e)]
  \/ exists s l,
       trace st1 =
       trace st ++ EvHeuristic it idx pos (Returned s)
                :: l ++ [EvUpdate it idx pos (Raised e)]
       /\ (l = [] \/ l = [EvPrint it idx s]).
Proof.
  rewrite step_unfold.
  destruct (heuristic pos (world st)) as [[s|e0] w1]; simpl.
  - destruct (update_fn pos (problem_space (self st)) w1) as [[v|e1] w2];
      [discriminate|].
    intros H. injection H as <- <-. right. simpl.
    destruct (score_ltb s (global_best_score (self st)));
      [exists s, [EvPrint it idx s] | exists s, []];
      (split; [rewrite <- !app_assoc; reflexivity | auto]).
  - intros H. injection H as <- <-. left. reflexivity.
Qed.

Lemma step_returned_trace (it idx : nat) (pos : Position) st st1 :
  step heuristic update_fn it idx pos st = (Returned tt, st1) ->
  exists new,
    trace st1 = trace st ++ new /\
    (forall ev, In ev new -> event_step ev = (it, idx)) /\
    Forall returns new.
Proof.
  intros H. apply step_returned in H.
  destruct H as (s & w1 & v & w2 & _ & _ & ->). simpl.
  exists ([EvHeuristic it idx pos (Returned s)]
          ++ (if score_ltb s (global_best_score (self st))
              then [EvPrint it idx s] else [])
          ++ [EvUpdate it idx pos (Returned v)]).
  split; [rewrite <- !app_assoc; reflexivity|].
  destruct (score_ltb s (global_best_score (self st))); simpl; split;
    try (intros ev H; in_cases H; subst ev; reflexivity);
    repeat constructor.
Qed.

Lemma for_enumerate_ordered (fuel it idx : nat) st r st' :
  all_before it idx (trace st) -> Forall returns (trace st) ->
  for_enumerate heuristic update_fn fuel it idx st = (r, st') ->
  match r with
  | Returned _ => all_before (S it) 0 (trace st') /\ Forall returns (trace st')
  | Raised e => raised_trace e (trace st')
  end.
Proof.
  revert idx st.
  induction fuel as [|fuel IH]; intros idx st Hord Hret Hrun; simpl in Hrun.
  - injection Hrun as <- <-. eauto using all_before_next_iteration.
  - destruct (swarm (self st) !! idx) as [pos|].
    2:{ injection Hrun as <- <-. eauto using all_before_next_iteration. }
    unfold bind in Hrun.
    destruct (step heuristic update_fn it idx pos st) as [[[]|e] st1] eqn:Hs.
    + apply step_returned_trace in Hs. destruct Hs as (new & Htr & Htag & Hnew).
      apply (IH (S idx) st1); [| |exact Hrun]; rewrite Htr.
      * apply all_before_next_agent; assumption.
      * apply Forall_app. split; assumption.
    + injection Hrun as <- <-. apply step_raised in Hs.
      destruct Hs as [->|(s & l & -> & Hl)].
      * apply raised_by_heuristic; assumption.
      * apply raised_by_update_fn; assumption.
Qed.

Lemma for_range_ordered (count it : nat) st r st' :
  all_before it 0 (trace st) -> Forall returns (trace st) ->
  for_range heuristic update_fn count it st = (r, st') ->
  match r with
  | Returned _ => Forall returns (trace st')
  | Raised e => raised_trace e (trace st')
  end.
Proof.
  revert it st.
  induction count as [|count IH]; intros it st Hord Hret Hrun; simpl in Hrun.
  - injection Hrun as <- <-. exact Hret.
  - unfold bind in Hrun.
    destruct (round heuristic update_fn it st) as [[[]|e] st1] eqn:Hr;
      unfold round in Hr;
      apply (for_enumerate_ordered _ _ _ _ _ _ Hord Hret) in Hr.
    + destruct Hr as [Hord1 Hret1]. apply (IH (S it) st1); assumption.
    + injection Hrun as <- <-. exact Hr.
Qed.

Lemma evaluations_before_app (it idx : nat) tr1 tr2 :
  evaluations_before it idx (tr1 ++ tr2) =
  evaluations_before it idx tr1 ++ evaluations_before it idx tr2.
Proof.
  unfold evaluations_before. rewrite List.filter_app. apply evaluations_app.
Qed.

Lemma evaluations_before_all (it idx : nat) tr :
  all_before it idx tr -> evaluations_before it idx tr = evaluations tr.
Proof.
  intros H. unfold evaluations_before. rewrite filter_all_before; auto.
Qed.

Lemma evaluations_before_step (it idx : nat) tr :
  (forall ev, In ev tr -> event_step ev = (it, idx)) ->
  evaluations_before it idx tr = [].
Proof.
  unfold evaluations_before.
  induction tr as [|ev tr IH]; intros H; simpl; [reflexivity|].
  rewrite before_step_self by (apply H; left; reflexivity).
  apply IH. intros ev' Hev'. apply H. right. exact Hev'.
Qed.

Lemma raised_trace_last (e : Exn) tr :
  raised_trace e tr ->
  exists tr1 last,
    tr = tr1 ++ [last] /\ raises e last /\ Forall returns tr1 /\
    match last with
    | EvHeuristic it idx _ _ =>
        evaluations tr = evaluations_before it idx tr
    | EvUpdate it idx pos _ =>
        exists s, evaluations tr = evaluations_before it idx tr ++ [(pos, s)]
    | EvPrint _ _ _ => False
    end.
Proof.
  intros [tr0 it idx pos Hord Hret | tr0 it idx pos s l Hord Hret Hl].
  - exists tr0, (EvHeuristic it idx pos (Raised e)).
    split; [reflexivity|]. split; [reflexivity|]. split; [exact Hret|].
    rewrite evaluations_before_app, evaluations_app.
    rewrite (evaluations_before_all _ _ _ Hord). f_equal.
    rewrite evaluations_before_step; [reflexivity|].
    intros ev [<-|[]]. reflexivity.
  - exists (tr0 ++ EvHeuristic it idx pos (Returned s) :: l),
      (EvUpdate it idx pos (Raised e)).
    split; [rewrite <- app_assoc; reflexivity|]. split; [reflexivity|].
    split.
    { apply Forall_app. split; [exact Hret|].
      destruct Hl as [->| ->]; repeat constructor. }
    exists s. rewrite evaluations_before_app, evaluations_app.
    rewrite (evaluations_before_all _ _ _ Hord), <- app_assoc. f_equal.
    rewrite evaluations_before_step.
    + destruct Hl as [->| ->]; reflexivity.
    + intros ev Hev. destruct Hl as [->| ->]; in_cases Hev; subst ev;
        reflexivity.
Qed.

(** C7, amended: an exception raised by [heuristic] or [update_fn] is what
    [optimize] raises, and the call that raised is the last event of the
    run: every call before it returned, and nothing is evaluated, updated or
    printed after it.  The record then is the first minimum of the
    evaluations made before that call: those of the steps strictly before
    the failing step when [heuristic] raised, and those together with the
    evaluation of the failing step itself when [update_fn] raised.
    When [optimize] returns, no call has raised. *)
Theorem error_propagates (n k : Z) (space : Space) (sw : list Position)
    (w : World) r st' :
  optimize heuristic update_fn k (start (constructed n space sw) w)
  = (r, st') ->
  is_best (evaluations (trace st')) (self st') /\
  match r with
  | Returned _ => Forall returns (trace st')
  | Raised e =>
      exists tr last,
        trace st' = tr ++ [last] /\ raises e last /\ Forall returns tr /\
        match last with
        | EvHeuristic it idx _ _ =>
            evaluations (trace st') = evaluations_before it idx (trace st')
        | EvUpdate it idx pos _ =>
            exists s,
              evaluations (trace st') =
              evaluations_before it idx (trace st') ++ [(pos, s)]
        | EvPrint _ _ _ => False
        end
  end.
Proof.
  intros Hopt. split.
  - pose proof (optimize_is_best n k space sw w) as Hb.
    rewrite Hopt in Hb. exact Hb.
  - unfold optimize, bind in Hopt.
    destruct (for_range heuristic update_fn (Z.to_nat k) 0
                (start (constructed n space sw) w))
      as [[[]|e] st1] eqn:Hr;
      apply for_range_ordered in Hr;
      try (intros ev []); try constructor;
      injection Hopt as <- <-.
    + exact Hr.
    + apply raised_trace_last. exact Hr.
Qed.

(** ** Two runs *)

Section Determinism.

Variable R : World -> World -> Prop.
Variable space : Space.

Hypothesis heuristic_deterministic :
  forall p wa wb, R wa wb ->
    fst (heuristic p wa) = fst (heuristic p wb) /\
    R (snd (heuristic p wa)) (snd (heuristic p wb)).
Hypothesis update_fn_deterministic :
  forall p wa wb, R wa wb ->
    fst (update_fn p space wa) = fst (update_fn p space wb) /\
    R (snd (update_fn p space wa)) (snd (update_fn p space wb)).

Lemma step_agree (it idx : nat) (pos : Position) st1 st2 :
  agree R space st1 st2 ->
  fst (step heuristic update_fn it idx pos st1) =
  fst (step heuristic update_fn it idx pos st2) /\
  agree R space (snd (step heuristic update_fn it idx pos st1))
                (snd (step heuristic update_fn it idx pos st2)).
Proof using heuristic_deterministic update_fn_deterministic.
  intros (Hself & Htr & Hsp & HR). rewrite !step_unfold.
  rewrite <- Hself, <- Htr, Hsp.
  destruct (heuristic_deterministic pos _ _ HR) as [Hr HR1].
  destruct (heuristic pos (world st1)) as [r1 wa];
    destruct (heuristic pos (world st2)) as [r2 wb]; simpl in Hr, HR1.
  subst r2. destruct r1 as [s|e]; simpl.
  - destruct (update_fn_deterministic pos _ _ HR1) as [Hv HR2].
    destruct (update_fn pos space wa) as [v1 wa'];
      destruct (update_fn pos space wb) as [v2 wb']; simpl in Hv, HR2.
    subst v2. destruct v1 as [v|e]; simpl;
      (split; [reflexivity|]); unfold agree; simpl;
      destruct (score_ltb s (global_best_score (self st1))); auto.
  - split; [reflexivity|]. unfold agree. simpl. auto.
Qed.

Lemma for_enumerate_agree (fuel it idx : nat) st1 st2 :
  agree R space st1 st2 ->
  fst (for_enumerate heuristic update_fn fuel it idx st1) =
  fst (for_enumerate heuristic update_fn fuel it idx st2) /\
  agree R space (snd (for_enumerate heuristic update_fn fuel it idx st1))
                (snd (for_enumerate heuristic update_fn fuel it idx st2)).
Proof using heuristic_deterministic update_fn_deterministic.
  revert idx st1 st2.
  induction fuel as [|fuel IH]; intros idx st1 st2 Hag; simpl.
  - auto.
  - pose proof Hag as (Hself & _). rewrite <- Hself.
    destruct (swarm (self st1) !! idx) as [pos|]; [|auto].
    unfold bind. destruct (step_agree it idx pos st1 st2 Hag) as [Hr Hag1].
    destruct (step heuristic update_fn it idx pos st1) as [r1 st1'];
      destruct (step heuristic update_fn it idx pos st2) as [r2 st2'];
      simpl in Hr, Hag1.
    subst r2. destruct r1 as [[]|e]; simpl; auto.
Qed.

Lemma for_range_agree (count it : nat) st1 st2 :
  agree R space st1 st2 ->
  fst (for_range heuristic update_fn count it st1) =
  fst (for_range heuristic update_fn count it st2) /\
  agree R space (snd (for_range heuristic update_fn count it st1))
                (snd (for_range heuristic update_fn count it st2)).
Proof using heuristic_deterministic update_fn_deterministic.
  revert it st1 st2.
  induction count as [|count IH]; intros it st1 st2 Hag; simpl.
  - auto.
  - unfold bind, round. pose proof Hag as (Hself & _). rewrite <- Hself.
    destruct (for_enumerate_agree (length (swarm (self st1))) it 0 st1 st2 Hag)
      as [Hr Hag1].
    destruct (for_enumerate heuristic update_fn (length (swarm (self st1)))
                it 0 st1) as [r1 st1'];
      destruct (for_enumerate heuristic update_fn
                  (length (swarm (self st1))) it 0 st2) as [r2 st2'];
      simpl in Hr, Hag1.
    subst r2. destruct r1 as [[]|e]; simpl; auto.
Qed.

Lemma optimize_agree (k : Z) st1 st2 :
  agree R space st1 st2 ->
  fst (optimize heuristic update_fn k st1) =
  fst (optimize heuristic update_fn k st2) /\
  trace (snd (optimize heuristic update_fn k st1)) =
  trace (snd (optimize heuristic update_fn k st2)).
Proof using heuristic_deterministic update_fn_deterministic.
  intros Hag. unfold optimize, bind.
  destruct (for_range_agree (Z.to_nat k) 0 st1 st2 Hag) as [Hr Hag1].
  destruct (for_range heuristic update_fn (Z.to_nat k) 0 st1) as [r1 st1'];
    destruct (for_range heuristic update_fn (Z.to_nat k) 0 st2) as [r2 st2'];
    simpl in Hr, Hag1.
  subst r2. destruct Hag1 as (Hself & Htr & _).
  destruct r1 as [[]|e]; simpl; rewrite ?Hself; auto.
Qed.

Hypothesis choice_deterministic :
  forall wa wb, R wa wb ->
    fst (choice space wa) = fst (choice space wb) /\
    R (snd (choice space wa)) (snd (choice space wb)).

Lemma sample_agree (n : nat) (wa wb : World) :
  R wa wb ->
  fst (sample choice n space wa) = fst (sample choice n space wb) /\
  R (snd (sample choice n space wa)) (snd (sample choice n space wb)).
Proof using choice_deterministic.
  revert wa wb. induction n as [|n IH]; intros wa wb HR; simpl.
  - auto.
  - unfold bind, ret. destruct (choice_deterministic wa wb HR) as [Hr HR1].
    destruct (choice space wa) as [r1 wa'];
      destruct (choice space wb) as [r2 wb']; simpl in Hr, HR1.
    subst r2. destruct r1 as [p|e]; simpl; [|auto].
    destruct (IH wa' wb' HR1) as [Hl HR2].
    destruct (sample choice n space wa') as [l1 wa2];
      destruct (sample choice n space wb') as [l2 wb2]; simpl in Hl, HR2.
    subst l2. destruct l1 as [l|e]; simpl; auto.
Qed.

Lemma run_agree (n k : Z) (w1 w2 : World) :
  R w1 w2 ->
  run heuristic update_fn choice n space k w1 =
  run heuristic update_fn choice n space k w2.
Proof using heuristic_deterministic update_fn_deterministic
  choice_deterministic.
  intros HR. unfold run, init, _initialize_swarm, bind, ret.
  destruct (sample_agree (Z.to_nat n) w1 w2 HR) as [Hl HR1].
  destruct (sample choice (Z.to_nat n) space w1) as [l1 wa];
    destruct (sample choice (Z.to_nat n) space w2) as [l2 wb];
    simpl in Hl, HR1.
  subst l2. destruct l1 as [sw|e]; [|reflexivity].
  destruct (optimize_agree k (start (constructed n space sw) wa)
              (start (constructed n space sw) wb)) as [Hr Htr].
  { unfold agree. simpl. auto. }
  rewrite Hr, Htr. reflexivity.
Qed.

End Determinism.

(** C8: let [R] relate the ambient states of two runs, and let the sampling,
    [heuristic] and [update_fn] be deterministic up to [R]: from related
    states they give the same result and related states.  Then two runs
    with the same [num_agents], problem space and number of iterations that
    start in related states give the same outcome, the same position and
    score or the same exception, and print the same notifications in the
    same order. *)
Theorem runs_deterministic (R : World -> World -> Prop) (space : Space)
    (n k : Z) (w1 w2 : World) :
  (forall p wa wb, R wa wb ->
     fst (heuristic p wa) = fst (heuristic p wb) /\
     R (snd (heuristic p wa)) (snd (heuristic p wb))) ->
  (forall p wa wb, R wa wb ->
     fst (update_fn p space wa) = fst (update_fn p space wb) /\
     R (snd (update_fn p space wa)) (snd (update_fn p space wb))) ->
  (forall wa wb, R wa wb ->
     fst (choice space wa) = fst (choice space wb) /\
     R (snd (choice space wa)) (snd (choice space wb))) ->
  R w1 w2 ->
  run heuristic update_fn choice n space k w1 =
  run heuristic update_fn choice n space k w2.
Proof. intros Hh Hu Hc HR. apply (run_agree R space Hh Hu Hc n k w1 w2 HR). Qed.

End Properties.

(** * Scenarios *)

(** C9: one agent, a problem space from which the sampling gives 5,
    [heuristic(x) = x], [update_fn(x, _) = x] and three iterations:
    [optimize] returns [(5, 5)] and exactly one line is printed, for
    iteration 0 and agent 0. *)
Theorem scenario_A {World : Type} (choice : list Z -> M py_exception World Z)
    (w : World) :
  (forall w0, exists w1, choice [5%Z] w0 = (Returned 5%Z, w1)) ->
  run (pure_heuristic score_of_Z) (pure_update_fn (fun x _ => x)) choice
      1 [5%Z] 3 w =
  (Returned (Some 5%Z, score_of_Z 5), [(0%nat, 0%nat, score_of_Z 5)]).
Proof.
  intros Hc. unfold run, init, _initialize_swarm, bind, ret. simpl.
  unfold bind, ret. destruct (Hc w) as (w1 & ->). reflexivity.
Qed.

(** Scenario B of the specification: three static agents at 2, 0 and 1 and
    [heuristic(x) = -x]; one iteration gives [(2, -2)], found by agent 0. *)
Example scenario_B :
  let rs :=
    optimize (pure_heuristic (fun x => score_of_Z (- x)))
      (pure_update_fn (fun x _ => x)) 1
      (start (constructed 3 [0; 1; 2]%Z [2; 0; 1]%Z) tt
       : state Z (list Z) unit py_exception) in
  fst rs = Returned (Some 2%Z, score_of_Z (-2)) /\
  notifications (trace (snd rs)) = [(0%nat, 0%nat, score_of_Z (-2))].
Proof. split; reflexivity. Qed.


(** The claim C7 as it stands fails when it is [update_fn] that raises: in
    the first step of a run with one agent at 5 and [heuristic(x) = x] the
    evaluation is recorded and printed, then [update_fn] raises.  No
    evaluation was made strictly before that step, and yet the record is
    [(5, 5)], not the sentinel. *)
Lemma record_after_update_fn_error :
  fst failed_run = Raised ValueError /\
  trace (snd failed_run) =
    [EvHeuristic 0 0 5%Z (Returned (score_of_Z 5));
     EvPrint 0 0 (score_of_Z 5);
     EvUpdate 0 0 5%Z (Raised ValueError)] /\
  global_best (self (snd failed_run)) = Some 5%Z /\
  global_best_score (self (snd failed_run)) = score_of_Z 5 /\
  evaluations_before 0 0 (trace (snd failed_run)) = [] /\
  ~ is_best (evaluations_before 0 0 (trace (snd failed_run)))
            (self (snd failed_run)).
Proof.
  repeat split.
  intros H. vm_compute in H. destruct H as (l1 & l2 & H & _).
  destruct l1; discriminate H.
Qed.

(** * The theorems at concrete inputs *)

Lemma optimize_returns_minimum_witness :
  (1 <= Z.to_nat 3 * length [5%Z])%nat /\
  is_min (score_of_Z 5)
    (scores (trace (snd (optimize heuristic_A update_fn_A 3 state_A)))).
Proof.
  assert (Hwork : (1 <= Z.to_nat 3 * length [5%Z])%nat) by (simpl; lia).
  split; [exact Hwork|].
  destruct (optimize_returns_minimum heuristic_A update_fn_A
              1 3 [5%Z] [5%Z] tt Hwork) as (_ & H & _).
  apply (H (Some 5%Z) (score_of_Z 5)
           (snd (optimize heuristic_A update_fn_A 3 state_A)) eq_refl).
Defined.

Lemma global_best_score_monotone_witness :
  (1 <= 3)%Z /\
  score_le
    (global_best_score
       (self (snd (optimize heuristic_A update_fn_A 3 state_A))))
    (global_best_score
       (self (snd (optimize heuristic_A update_fn_A (3 - 1) state_A)))).
Proof.
  assert (Hk : (1 <= 3)%Z) by lia.
  split; [exact Hk|].
  apply (proj1 (global_best_score_monotone heuristic_A update_fn_A
                  3 state_A Hk)).
Defined.

Lemma best_replaced_on_strict_improvement_witness :
  heuristic_A 5%Z (world state_A) = (Returned (score_of_Z 5), tt) /\
  score_lt (score_of_Z 5) (global_best_score (self state_A)) /\
  global_best (self (snd (step heuristic_A update_fn_A 0 0 5%Z state_A)))
  = Some 5%Z.
Proof.
  assert (Hlt : score_lt (score_of_Z 5) (global_best_score (self state_A)))
    by reflexivity.
  split; [reflexivity|]. split; [exact Hlt|].
  apply (proj1 (best_replaced_on_strict_improvement heuristic_A update_fn_A
                  0 0 5%Z state_A (score_of_Z 5) tt eq_refl)).
  exact Hlt.
Defined.

Lemma evaluation_precedes_update_witness :
  exists new,
    trace (snd (round heuristic_A update_fn_A 0 state_A)) =
    trace state_A ++ new.
Proof.
  destruct (evaluation_precedes_update heuristic_A update_fn_A 0 state_A
              (fst (round heuristic_A update_fn_A 0 state_A))
              (snd (round heuristic_A update_fn_A 0 state_A)) eq_refl)
    as (new & Htr & _).
  exists new. exact Htr.
Defined.

Lemma swarm_length_invariant_witness :
  (0 < 2)%Z /\
  init rng_choice 2 [2; 3; 4]%Z (7, 0)%nat =
  (Returned (constructed 2 [2; 3; 4]%Z [3; 4]%Z), (9, 0)%nat) /\
  Z.of_nat (length (swarm (constructed 2 [2; 3; 4]%Z [3; 4]%Z))) = 2%Z.
Proof.
  assert (Hn : (0 < 2)%Z) by lia.
  split; [exact Hn|]. split; [reflexivity|].
  apply (proj1 (swarm_length_invariant clocked_heuristic rng_update_fn
                  rng_choice 2 [2; 3; 4]%Z Hn)
           (7, 0)%nat (constructed 2 [2; 3; 4]%Z [3; 4]%Z) (9, 0)%nat
           eq_refl).
Defined.

Lemma error_propagates_witness :
  optimize heuristic_A (failing_update_fn ValueError) 1
    (start (constructed 1 [5%Z] [5%Z]) tt) =
  (fst failed_run, snd failed_run) /\
  is_best (evaluations (trace (snd failed_run))) (self (snd failed_run)).
Proof.
  split; [reflexivity|].
  apply (proj1 (error_propagates heuristic_A (failing_update_fn ValueError)
                  1 1 [5%Z] [5%Z] tt (fst failed_run) (snd failed_run)
                  eq_refl)).
Defined.

Lemma runs_deterministic_witness :
  same_seed (7, 0)%nat (7, 100)%nat /\
  run clocked_heuristic rng_update_fn rng_choice 2 [2; 3; 4]%Z 3 (7, 0)%nat =
  run clocked_heuristic rng_update_fn rng_choice 2 [2; 3; 4]%Z 3
      (7, 100)%nat.
Proof.
  assert (HR : same_seed (7, 0)%nat (7, 100)%nat) by reflexivity.
  split; [exact HR|].
  apply (runs_deterministic clocked_heuristic rng_update_fn rng_choice
           same_seed [2; 3; 4]%Z 2 3 (7, 0)%nat (7, 100)%nat).
  - intros p wa wb H. split; [reflexivity | exact H].
  - intros p wa wb H. unfold rng_update_fn, same_seed in *. simpl.
    rewrite H. split; reflexivity.
  - intros wa wb H. unfold rng_choice, same_seed in *. simpl.
    rewrite H. split; reflexivity.
  - exact HR.
Defined.

Lemma scenario_A_witness :
  run (pure_heuristic score_of_Z) (pure_update_fn (fun x _ => x)) rng_choice
      1 [5%Z] 3 (0, 0)%nat =
  (Returned (Some 5%Z, score_of_Z 5), [(0%nat, 0%nat, score_of_Z 5)]).
Proof.
  apply (scenario_A rng_choice (0, 0)%nat).
  intros w0. exists (S (fst w0), snd w0). unfold rng_choice.
  change (length [5%Z]) with 1%nat. rewrite Nat.mod_1_r. reflexivity.
Defined.

Lemma best_score_is_score_of_best_witness :
  (forall p w0,
     fst (clocked_heuristic p w0) = Returned (score_of_Z p)) /\
  global_best
    (self (snd (optimize clocked_heuristic rng_update_fn 2 state_B)))
  = Some 1%Z /\
  Returned (E:=py_exception) (score_of_Z 1) =
  Returned
    (global_best_score
       (self (snd (optimize clocked_heuristic rng_update_fn 2 state_B)))).
Proof.
  assert (Hpure : forall p w0,
            fst (clocked_heuristic p w0) = Returned (score_of_Z p))
    by reflexivity.
  split; [exact Hpure|]. split; [reflexivity|].
  apply (proj2 (best_score_is_score_of_best clocked_heuristic rng_update_fn
                  (fun p => Returned (score_of_Z p))
                  2 2 [2; 3; 4]%Z [3; 1]%Z (7, 0)%nat Hpure) 1%Z eq_refl).
Defined.

(** * Further properties of the optimizer *)

Section Further.

Context {Position Space World Exn : Type}.
Variable heuristic : Position -> M Exn World score.
Variable update_fn : Position -> Space -> M Exn World Position.
Variable choice : Space -> M Exn World Position.

Implicit Types (st : state Position Space World Exn).
Implicit Types (tr : list (event Position Exn)).

Ltac in_cases H :=
  repeat (destruct H as [H|H]; [try discriminate H|]); try contradiction.

(** ** Nothing to do *)

Lemma for_range_no_agent (count it : nat) st :
  swarm (self st) = [] ->
  for_range heuristic update_fn count it st = (Returned tt, st).
Proof.
  intros Hsw. revert it. induction count as [|count IH]; intros it; simpl.
  - reflexivity.
  - unfold bind, round. rewrite Hsw. simpl. apply IH.
Qed.

(** With no iteration to run, [iterations <= 0], or no agent in the swarm,
    [optimize] returns the record as it stands and changes nothing: no call
    to the collaborators, nothing printed, the same object. *)
Theorem optimize_nothing_to_do (k : Z) st :
  (k <= 0)%Z \/ swarm (self st) = [] ->
  optimize heuristic update_fn k st =
  (Returned (global_best (self st), global_best_score (self st)), st).
Proof.
  intros [Hk|Hsw]; unfold optimize, bind.
  - replace (Z.to_nat k) with 0%nat by lia. reflexivity.
  - rewrite for_range_no_agent by exact Hsw. reflexivity.
Qed.

(** With [num_agents <= 0] the constructor samples nothing, so it succeeds
    even on a problem space from which nothing can be drawn, and the program
    returns [(None, +inf)] and prints nothing, for any number of
    iterations. *)
Theorem run_without_agents (n k : Z) (space : Space) (w : World) :
  (n <= 0)%Z ->
  init choice n space w = (Returned (constructed n space []), w) /\
  run heuristic update_fn choice n space k w = (Returned (None, PInf), []).
Proof.
  intros Hn.
  assert (Hinit :
    init choice n space w = (Returned (constructed n space []), w)).
  { unfold init, _initialize_swarm, bind.
    replace (Z.to_nat n) with 0%nat by lia. reflexivity. }
  split; [exact Hinit|].
  unfold run. rewrite Hinit. unfold optimize, bind.
  rewrite for_range_no_agent by reflexivity. reflexivity.
Qed.

(** ** Positions stay in a set closed under the update *)

Lemma step_keeps_positions (Q : Position -> Prop) (space : Space)
    (tr0 : list (event Position Exn)) (it idx : nat) (pos : Position) st :
  (forall p w v w',
     Q p -> update_fn p space w = (Returned v, w') -> Q v) ->
  swarm (self st) !! idx = Some pos ->
  (problem_space (self st) = space /\
   Forall Q (swarm (self st)) /\
   (forall p, global_best (self st) = Some p -> Q p) /\
   exists new,
     trace st = tr0 ++ new /\
     forall ev, In ev new ->
       match ev with
       | EvHeuristic _ _ p _ => Q p
       | EvUpdate _ _ p _ => Q p
       | EvPrint _ _ _ => True
       end) ->
  let st' := snd (step heuristic update_fn it idx pos st) in
  problem_space (self st') = space /\
  Forall Q (swarm (self st')) /\
  (forall p, global_best (self st') = Some p -> Q p) /\
  exists new,
    trace st' = tr0 ++ new /\
    forall ev, In ev new ->
      match ev with
      | EvHeuristic _ _ p _ => Q p
      | EvUpdate _ _ p _ => Q p
      | EvPrint _ _ _ => True
      end.
Proof.
  intros Hu Hpos (Hsp & Hsw & Hgb & new & Htr & Hnew) st'. subst st'.
  assert (HQ : Q pos) by (eapply Forall_lookup_1; eassumption).
  rewrite step_unfold.
  destruct (heuristic pos (world st)) as [[s|e] w1]; simpl.
  - destruct (update_fn pos (problem_space (self st)) w1)
      as [[v|e] w2] eqn:Hupd; simpl.
    + rewrite Hsp in Hupd. pose proof (Hu _ _ _ _ HQ Hupd) as Hv.
      split; [destruct (score_ltb s _); exact Hsp|].
      split; [destruct (score_ltb s _); apply Forall_insert; assumption|].
      split.
      { destruct (score_ltb s _); simpl; [|exact Hgb].
        intros p Hp. injection Hp as <-. exact HQ. }
      exists (new ++ [EvHeuristic it idx pos (Returned s)]
                  ++ (if score_ltb s (global_best_score (self st))
                      then [EvPrint it idx s] else [])
                  ++ [EvUpdate it idx pos (Returned v)]).
      split; [rewrite Htr, <- !app_assoc; reflexivity|].
      intros ev Hev. apply in_app_or in Hev. destruct Hev as [Hev|Hev];
        [apply Hnew; exact Hev|].
      destruct (score_ltb s (global_best_score (self st)));
        simpl in Hev; in_cases Hev; subst ev; auto.
    + split; [destruct (score_ltb s _); exact Hsp|].
      split; [destruct (score_ltb s _); exact Hsw|].
      split.
      { destruct (score_ltb s _); simpl; [|exact Hgb].
        intros p Hp. injection Hp as <-. exact HQ. }
      exists (new ++ [EvHeuristic it idx pos (Returned s)]
                  ++ (if score_ltb s (global_best_score (self st))
                      then [EvPrint it idx s] else [])
                  ++ [EvUpdate it idx pos (Raised e)]).
      split; [rewrite Htr, <- !app_assoc; reflexivity|].
      intros ev Hev. apply in_app_or in Hev. destruct Hev as [Hev|Hev];
        [apply Hnew; exact Hev|].
      destruct (score_ltb s (global_best_score (self st)));
        simpl in Hev; in_cases Hev; subst ev; auto.
  - split; [exact Hsp|]. split; [exact Hsw|]. split; [exact Hgb|].
    exists (new ++ [EvHeuristic it idx pos (Raised e)]).
    split; [rewrite Htr, <- app_assoc; reflexivity|].
    intros ev Hev. apply in_app_or in Hev. destruct Hev as [Hev|[<-|[]]];
      [apply Hnew; exact Hev | exact HQ].
Qed.

Lemma optimize_keeps_positions (Q : Position -> Prop) (k : Z) st :
  Forall Q (swarm (self st)) ->
  (forall p, global_best (self st) = Some p -> Q p) ->
  (forall p w v w',
     Q p -> update_fn p (problem_space (self st)) w = (Returned v, w') ->
     Q v) ->
  let st' := snd (optimize heuristic update_fn k st) in
  problem_space (self st') = problem_space (self st) /\
  Forall Q (swarm (self st')) /\
  (forall p, global_best (self st') = Some p -> Q p) /\
  exists new,
    trace st' = trace st ++ new /\
    forall ev, In ev new ->
      match ev with
      | EvHeuristic _ _ p _ => Q p
      | EvUpdate _ _ p _ => Q p
      | EvPrint _ _ _ => True
      end.
Proof.
  intros Hsw Hgb Hu.
  apply (optimize_keeps heuristic update_fn
           (fun st' =>
              problem_space (self st') = problem_space (self st) /\
              Forall Q (swarm (self st')) /\
              (forall p, global_best (self st') = Some p -> Q p) /\
              exists new,
                trace st' = trace st ++ new /\
                forall ev, In ev new ->
                  match ev with
                  | EvHeuristic _ _ p _ => Q p
                  | EvUpdate _ _ p _ => Q p
                  | EvPrint _ _ _ => True
                  end)).
  - intros it idx pos st0 H Hpos.
    apply (step_keeps_positions Q (problem_space (self st)) (trace st));
      assumption.
  - split; [reflexivity|]. split; [exact Hsw|]. split; [exact Hgb|].
    exists []. rewrite app_nil_r. split; [reflexivity | intros ev []].
Qed.

(** When [update_fn], on the object's problem space, maps a set [Q] of
    positions into itself and the swarm and the recorded best position are
    in [Q], a call of [optimize], returning or raising, calls [heuristic]
    and [update_fn] on positions of [Q] only and leaves the swarm and the
    recorded best position in [Q]. *)
Theorem positions_stay_in (Q : Position -> Prop) (k : Z) st :
  Forall Q (swarm (self st)) ->
  (forall p, global_best (self st) = Some p -> Q p) ->
  (forall p w v w',
     Q p -> update_fn p (problem_space (self st)) w = (Returned v, w') ->
     Q v) ->
  let st' := snd (optimize heuristic update_fn k st) in
  Forall Q (swarm (self st')) /\
  (forall p, global_best (self st') = Some p -> Q p) /\
  exists new,
    trace st' = trace st ++ new /\
    forall ev, In ev new ->
      match ev with
      | EvHeuristic _ _ p _ => Q p
      | EvUpdate _ _ p _ => Q p
      | EvPrint _ _ _ => True
      end.
Proof.
  intros Hsw Hgb Hu.
  apply (optimize_keeps_positions Q k st Hsw Hgb Hu).
Qed.

(** ** What is printed *)

Lemma printed_scores_app tr1 tr2 :
  printed_scores (tr1 ++ tr2) = printed_scores tr1 ++ printed_scores tr2.
Proof. unfold printed_scores. rewrite notifications_app. apply map_app. Qed.

Lemma strictly_decreasing_snoc (l : list score) (s : score) :
  strictly_decreasing l ->
  match last l with Some s0 => score_lt s s0 | None => True end ->
  strictly_decreasing (l ++ [s]).
Proof.
  induction l as [|a l IH]; intros Hl Hs; simpl.
  - auto.
  - destruct Hl as [Ha Hl]. destruct l as [|b l].
    + simpl in *. auto.
    + split; [exact Ha|]. apply IH; [exact Hl|]. exact Hs.
Qed.

Lemma step_keeps_printed (it idx : nat) (pos : Position) st :
  (strictly_decreasing (printed_scores (trace st)) /\
   match last (printed_scores (trace st)) with
   | Some s0 => global_best_score (self st) = s0
   | None => global_best (self st) = None /\
             global_best_score (self st) = PInf
   end) ->
  let st' := snd (step heuristic update_fn it idx pos st) in
  strictly_decreasing (printed_scores (trace st')) /\
  match last (printed_scores (trace st')) with
  | Some s0 => global_best_score (self st') = s0
  | None => global_best (self st') = None /\
            global_best_score (self st') = PInf
  end.
Proof.
  intros [Hdec Hlast] st'. subst st'. rewrite step_unfold.
  destruct (heuristic pos (world st)) as [[s|e] w1]; simpl.
  - assert (H1 :
      strictly_decreasing
        (printed_scores
           ((trace st ++ [EvHeuristic it idx pos (Returned s)])
            ++ (if score_ltb s (global_best_score (self st))
                then [EvPrint it idx s] else []))) /\
      match
        last (printed_scores
                ((trace st ++ [EvHeuristic it idx pos (Returned s)])
                 ++ (if score_ltb s (global_best_score (self st))
                     then [EvPrint it idx s] else [])))
      with
      | Some s0 =>
          global_best_score
            (if score_ltb s (global_best_score (self st))
             then with_best (self st) pos s else self st) = s0
      | None =>
          global_best
            (if score_ltb s (global_best_score (self st))
             then with_best (self st) pos s else self st) = None /\
          global_best_score
            (if score_ltb s (global_best_score (self st))
             then with_best (self st) pos s else self st) = PInf
      end).
    { destruct (score_ltb s (global_best_score (self st))) eqn:Hlt;
        rewrite !printed_scores_app; simpl; rewrite !app_nil_r.
      - change (printed_scores [EvPrint (Position:=Position) (Exn:=Exn)
                                  it idx s]) with [s].
        rewrite last_snoc. split; [|reflexivity].
        apply strictly_decreasing_snoc; [exact Hdec|].
        destruct (last (printed_scores (trace st))) as [s0|];
          [|exact I]. rewrite <- Hlast. exact Hlt.
      - split; assumption. }
    destruct (update_fn pos (problem_space (self st)) w1) as [[v|e] w2];
      simpl; rewrite printed_scores_app; simpl; rewrite !app_nil_r;
      [|exact H1].
    destruct (score_ltb s (global_best_score (self st))); exact H1.
  - rewrite printed_scores_app. simpl. rewrite app_nil_r. split; assumption.
Qed.

Lemma reachable_printed st :
  reachable heuristic update_fn st ->
  strictly_decreasing (printed_scores (trace st)) /\
  match last (printed_scores (trace st)) with
  | Some s0 => global_best_score (self st) = s0
  | None => global_best (self st) = None /\
            global_best_score (self st) = PInf
  end.
Proof.
  induction 1 as [n space sw w | k st Hst IH | st w Hst IH].
  - simpl. auto.
  - apply (optimize_keeps heuristic update_fn
             (fun st =>
                strictly_decreasing (printed_scores (trace st)) /\
                match last (printed_scores (trace st)) with
                | Some s0 => global_best_score (self st) = s0
                | None => global_best (self st) = None /\
                          global_best_score (self st) = PInf
                end)); [|exact IH].
    intros it idx pos st0 H0 _. apply step_keeps_printed. exact H0.
  - exact IH.
Qed.

(** Over the life of an object, across calls of [optimize] that return or
    raise, every line printed announces a score strictly less than the line
    before it; the last line printed carries the current best score, and
    while nothing has been printed the record is still [(None, +inf)]. *)
Theorem printed_scores_decrease st :
  reachable heuristic update_fn st ->
  strictly_decreasing (printed_scores (trace st)) /\
  match last (printed_scores (trace st)) with
  | Some s0 => global_best_score (self st) = s0
  | None => global_best (self st) = None /\
            global_best_score (self st) = PInf
  end.
Proof. apply reachable_printed. Qed.

(** ** Calling [optimize] again *)

Lemma step_shift (d it idx : nat) (pos : Position) st st2 :
  self st = self st2 -> world st = world st2 ->
  let r1 := step heuristic update_fn (it + d) idx pos st in
  let r2 := step heuristic update_fn it idx pos st2 in
  fst r1 = fst r2 /\ self (snd r1) = self (snd r2) /\
  world (snd r1) = world (snd r2) /\
  exists new,
    trace (snd r2) = trace st2 ++ new /\
    trace (snd r1) = trace st ++ map (shift_iteration d) new.
Proof.
  intros Hself Hworld r1 r2. subst r1 r2. rewrite !step_unfold.
  rewrite Hself, Hworld.
  destruct (heuristic pos (world st2)) as [[s|e] w1]; simpl.
  - destruct (update_fn pos (problem_space (self st2)) w1) as [[v|e] w2];
      simpl; (split; [reflexivity|]); (split; [reflexivity|]);
      (split; [reflexivity|]);
      destruct (score_ltb s (global_best_score (self st2))).
    + exists [EvHeuristic it idx pos (Returned s); EvPrint it idx s;
              EvUpdate it idx pos (Returned v)].
      rewrite <- !app_assoc. split; reflexivity.
    + exists [EvHeuristic it idx pos (Returned s);
              EvUpdate it idx pos (Returned v)].
      rewrite <- !app_assoc. split; reflexivity.
    + exists [EvHeuristic it idx pos (Returned s); EvPrint it idx s;
              EvUpdate it idx pos (Raised e)].
      rewrite <- !app_assoc. split; reflexivity.
    + exists [EvHeuristic it idx pos (Returned s);
              EvUpdate it idx pos (Raised e)].
      rewrite <- !app_assoc. split; reflexivity.
  - split; [reflexivity|]. split; [reflexivity|]. split; [reflexivity|].
    exists [EvHeuristic it idx pos (Raised e)]. split; reflexivity.
Qed.

Lemma for_enumerate_shift (d fuel it idx : nat) st st2 :
  self st = self st2 -> world st = world st2 ->
  let r1 := for_enumerate heuristic update_fn fuel (it + d) idx st in
  let r2 := for_enumerate heuristic update_fn fuel it idx st2 in
  fst r1 = fst r2 /\ self (snd r1) = self (snd r2) /\
  world (snd r1) = world (snd r2) /\
  exists new,
    trace (snd r2) = trace st2 ++ new /\
    trace (snd r1) = trace st ++ map (shift_iteration d) new.
Proof.
  revert idx st st2.
  induction fuel as [|fuel IH]; intros idx st st2 Hself Hworld; simpl.
  - repeat split; try assumption. exists []. rewrite !app_nil_r. auto.
  - rewrite Hself. destruct (swarm (self st2) !! idx) as [pos|].
    2:{ simpl. repeat split; try assumption.
        exists []. rewrite !app_nil_r. auto. }
    unfold bind.
    destruct (step_shift d it idx pos st st2 Hself Hworld)
      as (Hr & Hs & Hw & new1 & Ht2 & Ht1).
    destruct (step heuristic update_fn (it + d) idx pos st) as [r1 st1];
      destruct (step heuristic update_fn it idx pos st2) as [r2 st2'];
      simpl in Hr, Hs, Hw, Ht2, Ht1.
    subst r2. destruct r1 as [[]|e]; simpl.
    + destruct (IH (S idx) st1 st2' Hs Hw) as (Hr' & Hs' & Hw' & new2 & Hu2 & Hu1).
      split; [exact Hr'|]. split; [exact Hs'|]. split; [exact Hw'|].
      exists (new1 ++ new2).
      rewrite Hu2, Hu1, Ht2, Ht1, map_app, <- !app_assoc. auto.
    + split; [reflexivity|]. split; [exact Hs|]. split; [exact Hw|].
      exists new1. auto.
Qed.

Lemma for_range_shift (d count it : nat) st st2 :
  self st = self st2 -> world st = world st2 ->
  let r1 := for_range heuristic update_fn count (it + d) st in
  let r2 := for_range heuristic update_fn count it st2 in
  fst r1 = fst r2 /\ self (snd r1) = self (snd r2) /\
  world (snd r1) = world (snd r2) /\
  exists new,
    trace (snd r2) = trace st2 ++ new /\
    trace (snd r1) = trace st ++ map (shift_iteration d) new.
Proof.
  revert it st st2.
  induction count as [|count IH]; intros it st st2 Hself Hworld; simpl.
  - repeat split; try assumption. exists []. rewrite !app_nil_r. auto.
  - unfold bind, round. rewrite Hself.
    destruct (for_enumerate_shift d (length (swarm (self st2))) it 0
                st st2 Hself Hworld)
      as (Hr & Hs & Hw & new1 & Ht2 & Ht1).
    destruct (for_enumerate heuristic update_fn
                (length (swarm (self st2))) (it + d) 0 st) as [r1 st1];
      destruct (for_enumerate heuristic update_fn
                  (length (swarm (self st2))) it 0 st2) as [r2 st2'];
      simpl in Hr, Hs, Hw, Ht2, Ht1.
    subst r2. destruct r1 as [[]|e]; simpl.
    + destruct (IH (S it) st1 st2' Hs Hw)
        as (Hr' & Hs' & Hw' & new2 & Hu2 & Hu1).
      change (S it + d)%nat with (S (it + d)) in Hr', Hs', Hw', Hu1.
      split; [exact Hr'|]. split; [exact Hs'|]. split; [exact Hw'|].
      exists (new1 ++ new2).
      rewrite Hu2, Hu1, Ht2, Ht1, map_app, <- !app_assoc. auto.
    + split; [reflexivity|]. split; [exact Hs|]. split; [exact Hw|].
      exists new1. auto.
Qed.

Lemma for_range_add (a b it : nat) st :
  for_range heuristic update_fn (a + b) it st =
  (for_range heuristic update_fn a it >>
   for_range heuristic update_fn b (it + a)) st.
Proof.
  revert it st. induction a as [|a IH]; intros it st; simpl.
  - unfold bind, ret. rewrite Nat.add_0_r. reflexivity.
  - unfold bind at 1 2 3.
    destruct (round heuristic update_fn it st) as [[[]|e] st1];
      [|reflexivity].
    rewrite IH. unfold bind.
    replace (S it + a)%nat with (it + S a)%nat by lia. reflexivity.
Qed.

(** Iterations add up across calls: after a call [optimize(a)] that
    returned, a call [optimize(b)] gives the outcome, the object and the
    ambient state that the single call [optimize(a + b)] gives, and makes
    the same calls and prints the same lines except that its iterations are
    numbered from 0 again instead of from [a]. *)
Theorem optimize_resumes (a b : Z) st r st1 :
  (0 <= a)%Z -> (0 <= b)%Z ->
  optimize heuristic update_fn a st = (Returned r, st1) ->
  fst (optimize heuristic update_fn (a + b) st) =
  fst (optimize heuristic update_fn b st1) /\
  self (snd (optimize heuristic update_fn (a + b) st)) =
  self (snd (optimize heuristic update_fn b st1)) /\
  world (snd (optimize heuristic update_fn (a + b) st)) =
  world (snd (optimize heuristic update_fn b st1)) /\
  exists new,
    trace (snd (optimize heuristic update_fn b st1)) = trace st1 ++ new /\
    trace (snd (optimize heuristic update_fn (a + b) st)) =
    trace st1 ++ map (shift_iteration (Z.to_nat a)) new.
Proof.
  intros Ha Hb Hopt. unfold optimize, bind in Hopt.
  destruct (for_range heuristic update_fn (Z.to_nat a) 0 st)
    as [[[]|e] st1'] eqn:Hfirst; [|discriminate].
  injection Hopt as _ <-.
  assert (Hlong :
    for_range heuristic update_fn (Z.to_nat (a + b)) 0 st =
    for_range heuristic update_fn (Z.to_nat b) (0 + Z.to_nat a) st1').
  { rewrite Z2Nat.inj_add by assumption. rewrite for_range_add.
    unfold bind. rewrite Hfirst. reflexivity. }
  destruct (for_range_shift (Z.to_nat a) (Z.to_nat b) 0 st1' st1'
              eq_refl eq_refl)
    as (Hr & Hs & Hw & new & Ht2 & Ht1).
  rewrite <- Hlong in Hr, Hs, Hw, Ht1.
  unfold optimize, bind.
  destruct (for_range heuristic update_fn (Z.to_nat (a + b)) 0 st)
    as [r1 s1];
    destruct (for_range heuristic update_fn (Z.to_nat b) 0 st1')
      as [r2 s2];
    simpl in Hr, Hs, Hw, Ht2, Ht1.
  subst r2. destruct r1 as [[]|e]; simpl.
  - rewrite Hs. split; [reflexivity|]. split; [reflexivity|].
    split; [exact Hw|]. exists new. auto.
  - split; [reflexivity|]. split; [exact Hs|]. split; [exact Hw|].
    exists new. auto.
Qed.

(** ** What [optimize] leaves alone *)

Lemma step_frame (it idx : nat) (pos : Position) st :
  let st' := snd (step heuristic update_fn it idx pos st) in
  num_agents (self st') = num_agents (self st) /\
  problem_space (self st') = problem_space (self st) /\
  exists new, trace st' = trace st ++ new.
Proof.
  intros st'. subst st'. rewrite step_unfold.
  destruct (heuristic pos (world st)) as [[s|e] w1]; simpl.
  - destruct (update_fn pos (problem_space (self st)) w1) as [[v|e] w2];
      simpl; destruct (score_ltb s (global_best_score (self st))); simpl;
      (split; [reflexivity|]); (split; [reflexivity|]);
      rewrite <- !app_assoc; eauto.
  - split; [reflexivity|]. split; [reflexivity|]. eauto.
Qed.

(** A call of [optimize], returning or raising, never changes the fields
    [num_agents] and [problem_space] of the object, and never removes or
    rewrites an event already in the trace: what was printed stays
    printed. *)
Theorem optimize_frame (k : Z) st :
  let st' := snd (optimize heuristic update_fn k st) in
  num_agents (self st') = num_agents (self st) /\
  problem_space (self st') = problem_space (self st) /\
  exists new,
    trace st' = trace st ++ new /\
    notifications (trace st') =
    notifications (trace st) ++ notifications new.
Proof.
  assert (H :
    let st' := snd (optimize heuristic update_fn k st) in
    num_agents (self st') = num_agents (self st) /\
    problem_space (self st') = problem_space (self st) /\
    exists new, trace st' = trace st ++ new).
  { apply (optimize_keeps heuristic update_fn
             (fun st' =>
                num_agents (self st') = num_agents (self st) /\
                problem_space (self st') = problem_space (self st) /\
                exists new, trace st' = trace st ++ new)).
    - intros it idx pos st0 (Hn & Hp & new & Htr) _.
      destruct (step_frame it idx pos st0) as (Hn1 & Hp1 & new1 & Htr1).
      split; [congruence|]. split; [congruence|].
      exists (new ++ new1). rewrite Htr1, Htr, app_assoc. reflexivity.
    - split; [reflexivity|]. split; [reflexivity|].
      exists []. rewrite app_nil_r. reflexivity. }
  destruct H as (Hn & Hp & new & Htr).
  split; [exact Hn|]. split; [exact Hp|].
  exists new. split; [exact Htr|]. rewrite Htr. apply notifications_app.
Qed.


(** ** Helpers for whole programs *)

Lemma sample_Forall (Q : Position -> Prop) (space : Space) (n : nat)
    (w : World) :
  (forall w0, exists p w1, choice space w0 = (Returned p, w1) /\ Q p) ->
  exists l w',
    sample choice n space w = (Returned l, w') /\
    length l = n /\ Forall Q l.
Proof.
  intros Hc. revert w. induction n as [|n IH]; intros w; simpl.
  - exists [], w. repeat split. constructor.
  - unfold bind, ret. destruct (Hc w) as (p & w1 & -> & Hp).
    destruct (IH w1) as (l & w2 & -> & Hlen & Hl).
    exists (p :: l), w2. split; [reflexivity|].
    split; [simpl; congruence | constructor; assumption].
Qed.

Lemma step_returns_on (it idx : nat) (pos : Position) st :
  (forall p w0, exists s w1, heuristic p w0 = (Returned s, w1)) ->
  (forall p w0, exists v w1,
     update_fn p (problem_space (self st)) w0 = (Returned v, w1)) ->
  exists st1,
    step heuristic update_fn it idx pos st = (Returned tt, st1) /\
    problem_space (self st1) = problem_space (self st).
Proof.
  intros Hh Hu. rewrite step_unfold.
  destruct (Hh pos (world st)) as (s & w1 & ->). simpl.
  destruct (Hu pos w1) as (v & w2 & ->).
  eexists. split; [reflexivity|]. simpl.
  destruct (score_ltb s (global_best_score (self st))); reflexivity.
Qed.

Lemma for_enumerate_returns_on (fuel it idx : nat) st :
  (forall p w0, exists s w1, heuristic p w0 = (Returned s, w1)) ->
  (forall p w0, exists v w1,
     update_fn p (problem_space (self st)) w0 = (Returned v, w1)) ->
  exists st1,
    for_enumerate heuristic update_fn fuel it idx st = (Returned tt, st1) /\
    problem_space (self st1) = problem_space (self st).
Proof.
  intros Hh. revert idx st.
  induction fuel as [|fuel IH]; intros idx st Hu; simpl; [eauto|].
  destruct (swarm (self st) !! idx) as [pos|]; [|eauto].
  unfold bind.
  destruct (step_returns_on it idx pos st Hh Hu) as (st1 & -> & Hps).
  destruct (IH (S idx) st1) as (st2 & Hrun & Hps2).
  { rewrite Hps. exact Hu. }
  exists st2. split; [exact Hrun | congruence].
Qed.

Lemma for_range_returns_on (count it : nat) st :
  (forall p w0, exists s w1, heuristic p w0 = (Returned s, w1)) ->
  (forall p w0, exists v w1,
     update_fn p (problem_space (self st)) w0 = (Returned v, w1)) ->
  exists st1,
    for_range heuristic update_fn count it st = (Returned tt, st1).
Proof.
  intros Hh. revert it st.
  induction count as [|count IH]; intros it st Hu; simpl;
    [unfold ret; eauto|].
  unfold bind, round.
  destruct (for_enumerate_returns_on (length (swarm (self st))) it 0 st
              Hh Hu) as (st1 & -> & Hps).
  apply IH. rewrite Hps. exact Hu.
Qed.

Lemma evaluations_In tr (q : Position) (s : score) :
  In (q, s) (evaluations tr) <->
  exists it idx, In (EvHeuristic it idx q (Returned s)) tr.
Proof.
  unfold evaluations. rewrite <- list_elem_of_In, list_elem_of_omap.
  split.
  - intros (ev & Hev & Heq). apply list_elem_of_In in Hev.
    destruct ev as [it idx p [s0|e]| |]; try discriminate Heq.
    injection Heq as -> ->. eauto.
  - intros (it & idx & Hev). apply list_elem_of_In in Hev.
    exists (EvHeuristic it idx q (Returned s)). auto.
Qed.

End Further.

(** * Collaborators that only compute *)

Section Pure.

Context {Position Space World Exn : Type}.
Variable h : Position -> score.
Variable u : Position -> Space -> Position.

Implicit Types (st : state Position Space World Exn).

Lemma for_enumerate_pure (rest done : list Position) (fuel it : nat) st :
  swarm (self st) = done ++ rest -> (length rest <= fuel)%nat ->
  exists st',
    for_enumerate (Exn:=Exn) (pure_heuristic h) (pure_update_fn u)
      fuel it (length done) st = (Returned tt, st')
    /\ swarm (self st') =
       done ++ map (fun p => u p (problem_space (self st))) rest
    /\ problem_space (self st') = problem_space (self st)
    /\ world st' = world st
    /\ evaluations (trace st') =
       evaluations (trace st) ++ map (fun p => (p, h p)) rest.
Proof.
  revert done fuel st.
  induction rest as [|p rest IH]; intros done fuel st Hsw Hfuel.
  - exists st. split.
    { destruct fuel as [|fuel]; simpl; [reflexivity|].
      rewrite Hsw, app_nil_r.
      rewrite (proj2 (lookup_ge_None done (length done))) by lia.
      reflexivity. }
    simpl. rewrite !app_nil_r. rewrite app_nil_r in Hsw. auto.
  - destruct fuel as [|fuel]; [simpl in Hfuel; lia|]. simpl.
    rewrite Hsw, (list_lookup_middle done rest p _ eq_refl).
    unfold bind. rewrite step_unfold. unfold pure_heuristic at 1.
    unfold pure_update_fn at 1. cbv zeta.
    set (o1 := if score_ltb (h p) (global_best_score (self st))
               then with_best (self st) p (h p) else self st).
    set (tr1 := ((trace st ++ [EvHeuristic it (length done) p (Returned (h p))])
                 ++ (if score_ltb (h p) (global_best_score (self st))
                     then [EvPrint it (length done) (h p)] else []))
                ++ [EvUpdate it (length done) p
                      (Returned (u p (problem_space (self st))))]).
    set (st1 := mkState
                  (with_swarm o1 (length done)
                     (u p (problem_space (self st))))
                  (world st) tr1).
    assert (Hps : problem_space (self st1) = problem_space (self st)).
    { subst st1 o1. simpl. destruct (score_ltb _ _); reflexivity. }
    assert (Hsw1 : swarm (self st1) =
                   (done ++ [u p (problem_space (self st))]) ++ rest).
    { subst st1 o1. simpl.
      assert (Hsame :
        swarm (if score_ltb (h p) (global_best_score (self st))
               then with_best (self st) p (h p) else self st)
        = swarm (self st)) by (destruct (score_ltb _ _); reflexivity).
      rewrite Hsame, Hsw.
      replace (length done) with (length done + 0)%nat at 1 by lia.
      rewrite insert_app_r, <- app_assoc. reflexivity. }
    destruct (IH (done ++ [u p (problem_space (self st))]) fuel st1 Hsw1)
      as (st' & Hrun & Hsw' & Hps' & Hw' & Hev').
    { simpl in Hfuel. lia. }
    rewrite length_app in Hrun. simpl in Hrun.
    replace (length done + 1)%nat with (S (length done)) in Hrun by lia.
    exists st'. split; [exact Hrun|].
    split; [rewrite Hsw', Hps, <- app_assoc; reflexivity|].
    split; [congruence|]. split; [exact Hw'|].
    rewrite Hev'. subst st1 tr1. simpl.
    rewrite !evaluations_app. simpl.
    destruct (score_ltb (h p) (global_best_score (self st))); simpl;
      rewrite ?app_nil_r, <- app_assoc; reflexivity.
Qed.

Lemma flat_map_seq_succ {A : Type} (F : nat -> list A) (s c : nat) :
  flat_map F (seq (S s) c) = flat_map (fun t => F (S t)) (seq s c).
Proof.
  revert s. induction c as [|c IH]; intros s; simpl; [reflexivity|].
  rewrite IH. reflexivity.
Qed.

Lemma for_range_pure (count it : nat) st :
  exists st',
    for_range (Exn:=Exn) (pure_heuristic h) (pure_update_fn u)
      count it st = (Returned tt, st')
    /\ swarm (self st') =
       map (Nat.iter count (fun p => u p (problem_space (self st))))
           (swarm (self st))
    /\ problem_space (self st') = problem_space (self st)
    /\ world st' = world st
    /\ evaluations (trace st') =
       evaluations (trace st)
       ++ flat_map
            (fun t =>
               map (fun p =>
                      (Nat.iter t (fun q => u q (problem_space (self st))) p,
                       h (Nat.iter t
                            (fun q => u q (problem_space (self st))) p)))
                   (swarm (self st)))
            (seq 0 count).
Proof.
  revert it st. induction count as [|count IH]; intros it st.
  - exists st. simpl. rewrite app_nil_r, map_id. auto.
  - simpl for_range. unfold bind, round.
    destruct (for_enumerate_pure (swarm (self st)) [] 
                (length (swarm (self st))) it st eq_refl (le_n _))
      as (st1 & Hrun1 & Hsw1 & Hps1 & Hw1 & Hev1).
    simpl in Hrun1, Hsw1. rewrite Hrun1.
    destruct (IH (S it) st1) as (st' & Hrun & Hsw & Hps & Hw & Hev).
    rewrite Hps1 in Hsw, Hev.
    exists st'. split; [exact Hrun|].
    split.
    { rewrite Hsw, Hsw1, map_map. apply map_ext. intros p.
      rewrite Nat.iter_succ_r. reflexivity. }
    split; [congruence|]. split; [congruence|].
    rewrite Hev, Hev1, Hsw1, <- app_assoc. f_equal.
    change (seq 0 (S count)) with (0%nat :: seq 1 count).
    simpl flat_map. f_equal.
    rewrite flat_map_seq_succ. apply flat_map_ext. intros t.
    rewrite map_map. apply map_ext. intros p.
    rewrite !Nat.iter_succ_r. reflexivity.
Qed.

(** With a heuristic [h] and an update [u] that only compute, [optimize]
    returns and leaves the ambient state as it was; agent [i] ends at [u]
    applied [iterations] times to its position, whatever the other agents
    do, and the positions evaluated are, iteration after iteration and
    agent after agent, the positions of the agents after that many
    updates. *)
Theorem pure_optimize (k : Z) st :
  exists st',
    optimize (Exn:=Exn) (pure_heuristic h) (pure_update_fn u) k st =
    (Returned (global_best (self st'), global_best_score (self st')), st')
    /\ swarm (self st') =
       map (Nat.iter (Z.to_nat k) (fun p => u p (problem_space (self st))))
           (swarm (self st))
    /\ world st' = world st
    /\ evaluations (trace st') =
       evaluations (trace st)
       ++ flat_map
            (fun t =>
               map (fun p =>
                      (Nat.iter t (fun q => u q (problem_space (self st))) p,
                       h (Nat.iter t
                            (fun q => u q (problem_space (self st))) p)))
                   (swarm (self st)))
            (seq 0 (Z.to_nat k)).
Proof.
  destruct (for_range_pure (Z.to_nat k) 0 st)
    as (st' & Hrun & Hsw & _ & Hw & Hev).
  exists st'. unfold optimize, bind. rewrite Hrun. auto.
Qed.

End Pure.

(** * A heuristic that only computes *)

Section PureHeuristic.

Context {Position Space World Exn : Type}.
Variable h : Position -> score.
Variable update_fn : Position -> Space -> M Exn World Position.

Implicit Types (st : state Position Space World Exn).

Lemma step_pure_scores (it idx : nat) (pos : Position) st :
  (forall q s, In (q, s) (evaluations (trace st)) -> s = h q) ->
  forall q s,
    In (q, s)
       (evaluations
          (trace (snd (step (pure_heuristic h) update_fn it idx pos st)))) ->
    s = h q.
Proof.
  intros Hst q s. rewrite step_unfold. unfold pure_heuristic at 1.
  cbv zeta.
  destruct (update_fn pos (problem_space (self st)) (world st))
    as [[v|e] w2]; simpl; rewrite !evaluations_app; simpl;
    destruct (score_ltb (h pos) (global_best_score (self st))); simpl;
    rewrite ?app_nil_r; intros Hin; apply in_app_or in Hin;
    destruct Hin as [Hin|[Heq|[]]]; auto; injection Heq as <- <-;
    reflexivity.
Qed.

Lemma optimize_pure_scores (k : Z) st :
  (forall q s, In (q, s) (evaluations (trace st)) -> s = h q) ->
  forall q s,
    In (q, s)
       (evaluations
          (trace (snd (optimize (pure_heuristic h) update_fn k st)))) ->
    s = h q.
Proof.
  intros Hst.
  apply (optimize_keeps (pure_heuristic h) update_fn
           (fun st => forall q s,
              In (q, s) (evaluations (trace st)) -> s = h q));
    [|exact Hst].
  intros it idx pos st0 H0 _. apply step_pure_scores. exact H0.
Qed.

End PureHeuristic.


(** * The example program *)

Section MainProgram.

Import Main.

Context {World : Type}.
Variable int_sqrt : Z -> Z.
Variable randint : Z -> Z -> M py_exception World Z.
Variable choice : py_range -> M py_exception World Z.

(** ** Trial division *)

Lemma no_divisor_spec (count : nat) (i n : Z) :
  no_divisor count i n = true <->
  forall j, (i <= j < i + Z.of_nat count)%Z -> (n mod j <> 0)%Z.
Proof.
  revert i. induction count as [|count IH]; intros i; simpl no_divisor.
  - split; [intros _ j Hj; lia | reflexivity].
  - destruct (n mod i =? 0)%Z eqn:Hmod.
    + apply Z.eqb_eq in Hmod. split; [discriminate|].
      intros H. exfalso. apply (H i); [lia | exact Hmod].
    + apply Z.eqb_neq in Hmod. rewrite IH. split.
      * intros H j Hj. destruct (Z.eq_dec j i) as [->|Hne]; [exact Hmod|].
        apply H. lia.
      * intros H j Hj. apply H. lia.
Qed.

Lemma is_prime_below_2 (n : Z) : (n < 2)%Z -> is_prime int_sqrt n = false.
Proof.
  intros Hn. unfold is_prime.
  destruct (n <? 2)%Z eqn:Hlt; [reflexivity|]. apply Z.ltb_ge in Hlt. lia.
Qed.

Lemma is_prime_prime (n : Z) :
  (2 <= n -> Z.sqrt n <= int_sqrt n < n)%Z ->
  is_prime int_sqrt n = true <-> Z.prime n.
Proof.
  intros Hsqrt. split.
  - intros Hp.
    destruct (Z_lt_le_dec n 2) as [Hlt|Hge];
      [rewrite is_prime_below_2 in Hp by exact Hlt; discriminate|].
    specialize (Hsqrt Hge).
    unfold is_prime in Hp.
    destruct (n <? 2)%Z; [discriminate|].
    rewrite no_divisor_spec in Hp.
    assert (H1 : (1 <= Z.sqrt n)%Z)
      by (apply Z.sqrt_le_square; lia).
    assert (Hnone : forall j, (2 <= j <= Z.sqrt n)%Z -> (n mod j <> 0)%Z)
      by (intros j Hj; apply Hp; lia).
    split; [lia|]. intros m Hm [q Hq].
    assert (Hq2 : (2 <= q)%Z) by nia.
    destruct (Z_le_gt_dec m q) as [Hmq|Hmq].
    + apply (Hnone m).
      * split; [lia|]. apply Z.sqrt_le_square; [lia | lia | nia].
      * apply Z.mod_divide; [lia|]. exists q. exact Hq.
    + apply (Hnone q).
      * split; [lia|]. apply Z.sqrt_le_square; [lia | lia | nia].
      * apply Z.mod_divide; [lia|]. exists m. lia.
  - intros [Hn Hdiv].
    assert (Hge : (2 <= n)%Z) by lia. specialize (Hsqrt Hge).
    unfold is_prime.
    destruct (n <? 2)%Z eqn:Hlt; [apply Z.ltb_lt in Hlt; lia|].
    apply no_divisor_spec. intros j Hj Hmod.
    apply (Hdiv j); [lia|]. apply Z.mod_divide; [lia | exact Hmod].
Qed.

(** [is_prime] decides primality: it answers [False] below 2, and for
    [n >= 2] it answers [True] exactly when [n] is prime, as long as the
    truncated square root it is given is at least the integer square root
    of [n] and less than [n]. *)
Theorem is_prime_correct (n : Z) :
  (2 <= n -> Z.sqrt n <= int_sqrt n < n)%Z ->
  (is_prime int_sqrt n = true <-> Z.prime n) /\
  ((n < 2)%Z -> is_prime int_sqrt n = false).
Proof.
  intros Hsqrt. split; [apply is_prime_prime; exact Hsqrt|].
  apply is_prime_below_2.
Qed.

(** ** The example's heuristic *)

Lemma score_of_Z_lt (a b : Z) :
  score_lt (score_of_Z a) (score_of_Z b) <-> (a < b)%Z.
Proof.
  unfold score_of_Z. rewrite score_lt_Fin, <- Zlt_Qlt. reflexivity.
Qed.

Lemma heuristic_prime (n : Z) :
  (2 <= n -> Z.sqrt n <= int_sqrt n < n)%Z ->
  Z.prime n -> heuristic int_sqrt n = score_of_Z (-1).
Proof.
  intros Hsqrt Hp. unfold heuristic.
  rewrite (proj2 (is_prime_prime n Hsqrt) Hp). reflexivity.
Qed.

Lemma heuristic_not_prime (n : Z) :
  (2 <= n -> Z.sqrt n <= int_sqrt n < n)%Z ->
  ~ Z.prime n -> heuristic int_sqrt n = score_of_Z n.
Proof.
  intros Hsqrt Hp. unfold heuristic.
  destruct (is_prime int_sqrt n) eqn:Hip; [|reflexivity].
  destruct Hp. apply (is_prime_prime n Hsqrt). exact Hip.
Qed.

(** The example's heuristic gives -1 to a prime and [m] to a number [m]
    that is not prime.  So a prime scores strictly below every number above
    -1 that is not prime; but every number below -1 scores strictly below
    the primes: on its own the heuristic does not keep the search at 2 and
    above. *)
Theorem heuristic_ranks (n m : Z) :
  (2 <= n -> Z.sqrt n <= int_sqrt n < n)%Z ->
  (2 <= m -> Z.sqrt m <= int_sqrt m < m)%Z ->
  Z.prime n -> ~ Z.prime m ->
  heuristic int_sqrt n = score_of_Z (-1) /\
  heuristic int_sqrt m = score_of_Z m /\
  ((-1 < m)%Z -> score_lt (heuristic int_sqrt n) (heuristic int_sqrt m)) /\
  ((m < -1)%Z -> score_lt (heuristic int_sqrt m) (heuristic int_sqrt n)).
Proof.
  intros Hn Hm Hpn Hpm.
  rewrite (heuristic_prime n Hn Hpn), (heuristic_not_prime m Hm Hpm).
  split; [reflexivity|]. split; [reflexivity|].
  split; intros H; apply score_of_Z_lt; exact H.
Qed.

(** ** The example's random walk *)

Lemma fold_max_range (a : Z) (n s : nat) (x : Z) :
  fold_left Z.max (map (fun i => (a + Z.of_nat i)%Z) (seq s n)) x =
  match n with
  | O => x
  | S _ => Z.max x (a + Z.of_nat (s + n) - 1)
  end.
Proof.
  revert s x. induction n as [|n IH]; intros s x; simpl; [reflexivity|].
  rewrite IH. destruct n as [|n]; lia.
Qed.

Lemma fold_min_range (a : Z) (n s : nat) (x : Z) :
  (x <= a + Z.of_nat s)%Z ->
  fold_left Z.min (map (fun i => (a + Z.of_nat i)%Z) (seq s n)) x = x.
Proof.
  revert s x. induction n as [|n IH]; intros s x Hx; simpl; [reflexivity|].
  rewrite IH; lia.
Qed.

Lemma py_max_range (space : py_range) :
  (range_start space < range_stop space)%Z ->
  py_max (range_list space) = Returned (range_stop space - 1)%Z.
Proof.
  intros Hne. unfold range_list.
  destruct (Z.to_nat (range_stop space - range_start space)) as [|len]
    eqn:Hlen; [lia|].
  simpl. rewrite fold_max_range. f_equal. destruct len as [|len]; lia.
Qed.

Lemma py_min_range (space : py_range) :
  (range_start space < range_stop space)%Z ->
  py_min (range_list space) = Returned (range_start space).
Proof.
  intros Hne. unfold range_list.
  destruct (Z.to_nat (range_stop space - range_start space)) as [|len]
    eqn:Hlen; [lia|].
  simpl. rewrite fold_min_range by lia. f_equal. lia.
Qed.

Lemma range_list_empty (space : py_range) :
  (range_stop space <= range_start space)%Z -> range_list space = [].
Proof.
  intros He. unfold range_list.
  replace (Z.to_nat (range_stop space - range_start space)) with 0%nat
    by lia.
  reflexivity.
Qed.

Lemma update_fn_returned (position : Z) (space : py_range) (w w1 : World)
    (step : Z) :
  (range_start space < range_stop space)%Z ->
  randint (-5) 5 w = (Returned step, w1) ->
  update_fn randint position space w =
  (Returned (Z.max (Z.min (position + step) (range_stop space - 1))
                   (range_start space)), w1).
Proof.
  intros Hne Hr. unfold update_fn, bind, lift, ret. rewrite Hr.
  rewrite (py_max_range space Hne), (py_min_range space Hne). reflexivity.
Qed.

(** On a range that is not empty, and whatever step was drawn, the
    example's [update_fn] returns a position of the range: the position
    plus the step when that is in the range, and the nearer end of the
    range otherwise.  From a position of the range and with a step between
    -5 and 5 it moves by at most 5. *)
Theorem update_fn_clamps (position : Z) (space : py_range) (w w1 : World)
    (step : Z) :
  (range_start space < range_stop space)%Z ->
  randint (-5) 5 w = (Returned step, w1) ->
  exists v,
    update_fn randint position space w = (Returned v, w1) /\
    (range_start space <= v < range_stop space)%Z /\
    ((range_start space <= position + step < range_stop space)%Z ->
     v = (position + step)%Z) /\
    ((position + step < range_start space)%Z -> v = range_start space) /\
    ((range_stop space <= position + step)%Z ->
     v = (range_stop space - 1)%Z) /\
    ((range_start space <= position < range_stop space)%Z ->
     (-5 <= step <= 5)%Z -> (Z.abs (v - position) <= 5)%Z).
Proof.
  intros Hne Hr.
  exists (Z.max (Z.min (position + step) (range_stop space - 1))
                (range_start space)).
  split; [apply update_fn_returned; assumption|].
  repeat split; lia.
Qed.

(** On an empty range the example's [update_fn] raises [ValueError], from
    [max(space)], after it has drawn its step from the generator; an
    exception of the generator is raised as it is. *)
Theorem update_fn_empty_space (position : Z) (space : py_range)
    (w : World) :
  (range_stop space <= range_start space)%Z ->
  update_fn randint position space w =
  match randint (-5) 5 w with
  | (Returned _, w1) => (Raised ValueError, w1)
  | (Raised e, w1) => (Raised e, w1)
  end.
Proof.
  intros He. unfold update_fn, bind, lift.
  rewrite (range_list_empty space He). simpl.
  destruct (randint (-5) 5 w) as [[step|e] w1]; reflexivity.
Qed.

Lemma range_list_In (space : py_range) (q : Z) :
  In q (range_list space) <->
  (range_start space <= q < range_stop space)%Z.
Proof.
  unfold range_list. rewrite in_map_iff. split.
  - intros (i & <- & Hi). apply in_seq in Hi. lia.
  - intros Hq. exists (Z.to_nat (q - range_start space)). split; [lia|].
    apply in_seq. lia.
Qed.

Lemma rng_range_choice_in (space : py_range) (w0 : ambient) :
  (range_start space < range_stop space)%Z ->
  exists p w1,
    rng_range_choice space w0 = (Returned p, w1) /\
    (range_start space <= p < range_stop space)%Z.
Proof.
  intros Hne. unfold rng_range_choice, rng_choice.
  destruct (range_list space) as [|x l] eqn:Hl.
  - exfalso.
    assert (Hin : In (range_start space) (range_list space))
      by (apply range_list_In; lia).
    rewrite Hl in Hin. exact Hin.
  - eexists _, _. split; [reflexivity|].
    apply range_list_In. rewrite Hl. apply nth_In.
    apply Nat.mod_upper_bound. discriminate.
Qed.


(** ** The whole example *)

Lemma score_of_Z_le (a b : Z) :
  score_le (score_of_Z a) (score_of_Z b) <-> (a <= b)%Z.
Proof.
  unfold score_of_Z. rewrite score_le_Fin, <- Zle_Qle. reflexivity.
Qed.

Lemma heuristic_Fin (n : Z) :
  heuristic int_sqrt n = score_of_Z (-1) \/
  heuristic int_sqrt n = score_of_Z n.
Proof. unfold heuristic. destruct (is_prime int_sqrt n); auto. Qed.

(** The example program, with a generator that does not raise, a sampling
    that gives members of [range(2, 100)] and a truncated square root that
    is right on that range: construction and [optimize(50)] return, after
    500 evaluations, all on numbers from 2 to 99, where the ten agents
    remain.  The position returned is the first prime that was evaluated,
    with score -1; or, if no prime was evaluated, the least number
    evaluated, with itself as score. *)
Theorem main_result (w : World) :
  (forall n, (2 <= n < 100)%Z -> (Z.sqrt n <= int_sqrt n < n)%Z) ->
  (forall w0, exists p w1,
     choice problem_space w0 = (Returned p, w1) /\ (2 <= p < 100)%Z) ->
  (forall w0, exists s w1, randint (-5) 5 w0 = (Returned s, w1)) ->
  exists o w1 p s st',
    init choice 10 problem_space w = (Returned o, w1) /\
    optimize (pure_heuristic (heuristic int_sqrt)) (update_fn randint) 50
      (start o w1) = (Returned (Some p, s), st') /\
    main int_sqrt randint choice w =
      (Returned (Some p, s), notifications (trace st')) /\
    (2 <= p < 100)%Z /\
    length (evaluations (trace st')) = 500%nat /\
    length (swarm (self st')) = 10%nat /\
    Forall (fun q => (2 <= q < 100)%Z) (swarm (self st')) /\
    (forall q sq, In (q, sq) (evaluations (trace st')) ->
                  (2 <= q < 100)%Z /\ sq = heuristic int_sqrt q) /\
    first_min (evaluations (trace st')) p s /\
    ((Z.prime p /\ s = score_of_Z (-1)) \/
     (~ Z.prime p /\ s = score_of_Z p /\
      forall q sq, In (q, sq) (evaluations (trace st')) ->
                   ~ Z.prime q /\ (p <= q)%Z)).
Proof.
  intros Hsqrt Hchoice Hrand.
  destruct (sample_Forall choice (fun q => (2 <= q < 100)%Z)
              problem_space 10 w Hchoice)
    as (sw & w1 & Hs & Hlen & Hsw).
  assert (Hinit : init choice 10 problem_space w =
                  (Returned (constructed 10 problem_space sw), w1)).
  { unfold init, _initialize_swarm, bind, ret.
    change (Z.to_nat 10) with 10%nat. rewrite Hs. reflexivity. }
  set (st0 := start (World:=World) (Exn:=py_exception)
                (constructed 10 problem_space sw) w1).
  assert (Hupd : forall p w0, exists v w2,
            update_fn randint p problem_space w0 = (Returned v, w2)).
  { intros p w0. destruct (Hrand w0) as (s & w2 & Hr).
    eexists _, w2. apply update_fn_returned; [reflexivity | exact Hr]. }
  assert (Hin : forall p w0 v w2,
            (2 <= p < 100)%Z ->
            update_fn randint p problem_space w0 = (Returned v, w2) ->
            (2 <= v < 100)%Z).
  { intros p w0 v w2 _ Hv. destruct (Hrand w0) as (s & w3 & Hr).
    rewrite (update_fn_returned p problem_space w0 w3 s eq_refl Hr) in Hv.
    injection Hv as <- _. simpl. lia. }
  destruct (for_range_returns_on (pure_heuristic (heuristic int_sqrt))
              (update_fn randint) 50 0 st0) as (st' & Hrun).
  { intros p w0. unfold pure_heuristic. eauto. }
  { exact Hupd. }
  assert (Hopt :
    optimize (pure_heuristic (heuristic int_sqrt)) (update_fn randint) 50
      st0 =
    (Returned (global_best (self st'), global_best_score (self st')), st')).
  { unfold optimize, bind. change (Z.to_nat 50) with 50%nat.
    rewrite Hrun. reflexivity. }
  assert (Hst' : snd (optimize (pure_heuristic (heuristic int_sqrt))
                        (update_fn randint) 50 st0) = st')
    by (rewrite Hopt; reflexivity).
  (* the evaluations *)
  pose proof (for_range_returned_count _ _ _ _ _ _ Hrun) as Hcnt.
  change (length (swarm (self st0))) with (length sw) in Hcnt.
  change (evaluations (trace st0)) with (@nil (Z * score)) in Hcnt.
  rewrite Hlen in Hcnt. change (length [] + 50 * 10)%nat with 500%nat in Hcnt.
  destruct (optimize_keeps_positions (pure_heuristic (heuristic int_sqrt))
              (update_fn randint) (fun q => (2 <= q < 100)%Z) 50 st0)
    as (_ & Hswarm & _ & new & Htr & Hnew).
  { exact Hsw. }
  { simpl. discriminate. }
  { exact Hin. }
  rewrite Hst' in Hswarm, Htr. simpl in Htr.
  assert (Heval : forall q sq, In (q, sq) (evaluations (trace st')) ->
                   (2 <= q < 100)%Z /\ sq = heuristic int_sqrt q).
  { intros q sq Hq. split.
    - apply evaluations_In in Hq. destruct Hq as (it & idx & Hq).
      rewrite Htr in Hq. apply (Hnew _ Hq).
    - rewrite <- Hst' in Hq. revert Hq. apply optimize_pure_scores.
      simpl. intros ? ? []. }
  pose proof (optimize_is_best (pure_heuristic (heuristic int_sqrt))
                (update_fn randint) 10 50 problem_space sw w1) as Hbest.
  fold st0 in Hbest. rewrite Hst' in Hbest. simpl in Hbest.
  pose proof (optimize_length (pure_heuristic (heuristic int_sqrt))
                (update_fn randint) 50 st0) as Hlen'.
  rewrite Hst' in Hlen'. simpl in Hlen'. rewrite Hlen in Hlen'.
  unfold is_best in Hbest.
  destruct (global_best (self st')) as [p|] eqn:Hgb.
  2:{ exfalso. destruct Hbest as [_ Hall].
      destruct (evaluations (trace st')) as [|[q sq] l] eqn:Hl;
        [simpl in Hcnt; lia|].
      pose proof (Hall (q, sq) (or_introl eq_refl)) as Hinf.
      destruct (Heval q sq (or_introl eq_refl)) as [_ Hsq].
      simpl in Hinf. rewrite Hinf in Hsq.
      destruct (heuristic_Fin q) as [H1|H1]; rewrite H1 in Hsq;
        discriminate Hsq. }
  set (s := global_best_score (self st')) in *.
  assert (Hps : In (p, s) (evaluations (trace st'))).
  { destruct Hbest as (l1 & l2 & -> & _). apply in_or_app. right. left.
    reflexivity. }
  destruct (Heval p s Hps) as [Hp Hs'].
  assert (Hle : forall q sq, In (q, sq) (evaluations (trace st')) ->
                  score_le s sq).
  { destruct Hbest as (l1 & l2 & Hl & H1 & H2). intros q sq Hq.
    rewrite Hl in Hq. apply in_app_or in Hq. destruct Hq as [Hq|[Hq|Hq]].
    - apply score_lt_le. apply (H1 _ Hq).
    - injection Hq as _ <-. apply score_le_refl.
    - apply (H2 _ Hq). }
  exists (constructed 10 problem_space sw), w1, p, s, st'.
  split; [exact Hinit|]. split; [exact Hopt|].
  split.
  { unfold main, run. rewrite Hinit. fold st0. rewrite Hopt. reflexivity. }
  split; [exact Hp|]. split; [exact Hcnt|]. split; [exact Hlen'|].
  split; [exact Hswarm|]. split; [exact Heval|]. split; [exact Hbest|].
  destruct (is_prime int_sqrt p) eqn:Hip.
  - left. split.
    + apply (is_prime_prime p); [intros _; apply Hsqrt; lia|].
      exact Hip.
    + rewrite Hs'. unfold heuristic. rewrite Hip. reflexivity.
  - right.
    assert (Hnp : ~ Z.prime p).
    { intros Hpr.
      apply (is_prime_prime p) in Hpr;
        [congruence | intros _; apply Hsqrt; lia]. }
    assert (Hsp : s = score_of_Z p)
      by (rewrite Hs'; unfold heuristic; rewrite Hip; reflexivity).
    split; [exact Hnp|]. split; [exact Hsp|].
    intros q sq Hq. destruct (Heval q sq Hq) as [Hq2 Hsq].
    pose proof (Hle q sq Hq) as Hpq. rewrite Hsp, Hsq in Hpq.
    destruct (is_prime int_sqrt q) eqn:Hiq.
    + exfalso. unfold heuristic in Hpq. rewrite Hiq in Hpq.
      apply score_of_Z_le in Hpq. lia.
    + split.
      * intros Hpr.
        apply (is_prime_prime q) in Hpr;
          [congruence | intros _; apply Hsqrt; lia].
      * unfold heuristic in Hpq. rewrite Hiq in Hpq.
        apply score_of_Z_le in Hpq. exact Hpq.
Qed.

End MainProgram.

(** * The further theorems at concrete inputs *)

Lemma optimize_nothing_to_do_witness :
  ((-3 <= 0)%Z \/ swarm (self state_A) = []) /\
  optimize heuristic_A update_fn_A (-3) state_A =
  (Returned (None, PInf), state_A).
Proof.
  assert (H : (-3 <= 0)%Z \/ swarm (self state_A) = []) by (left; lia).
  split; [exact H|].
  apply (optimize_nothing_to_do heuristic_A update_fn_A (-3) state_A H).
Defined.

Lemma run_without_agents_witness :
  (0 <= 0)%Z /\
  run clocked_heuristic rng_update_fn rng_choice 0 [] 50 (7, 0)%nat =
  (Returned (None, PInf), []).
Proof.
  assert (H : (0 <= 0)%Z) by lia.
  split; [exact H|].
  apply (proj2 (run_without_agents clocked_heuristic rng_update_fn
                  rng_choice 0 50 [] (7, 0)%nat H)).
Defined.

Lemma positions_stay_in_witness :
  Forall (fun p => (2 <= p < 5)%Z) (swarm (self Main.state_C)) /\
  Forall (fun p => (2 <= p < 5)%Z)
    (swarm (self (snd (optimize clocked_heuristic
                         (Main.update_fn Main.rng_randint) 3
                         Main.state_C)))).
Proof.
  assert (Hsw : Forall (fun p => (2 <= p < 5)%Z)
                  (swarm (self Main.state_C))).
  { repeat constructor; lia. }
  split; [exact Hsw|].
  apply (positions_stay_in clocked_heuristic
           (Main.update_fn Main.rng_randint)
           (fun p => (2 <= p < 5)%Z) 3 Main.state_C Hsw).
  - simpl. discriminate.
  - intros p w v w' _ Hv.
    change (problem_space (self Main.state_C)) with (Main.mkRange 2 5)
      in Hv.
    rewrite (update_fn_returned Main.rng_randint p (Main.mkRange 2 5)
               w _ _ ltac:(simpl; lia) eq_refl) in Hv.
    injection Hv as <- _. simpl. lia.
Defined.

Lemma printed_scores_decrease_witness :
  reachable clocked_heuristic rng_update_fn
    (snd (optimize clocked_heuristic rng_update_fn 2 state_B)) /\
  strictly_decreasing
    (printed_scores
       (trace (snd (optimize clocked_heuristic rng_update_fn 2 state_B)))).
Proof.
  assert (H : reachable clocked_heuristic rng_update_fn
                (snd (optimize clocked_heuristic rng_update_fn 2 state_B))).
  { apply reachable_optimize. apply reachable_start. }
  split; [exact H|].
  apply (proj1 (printed_scores_decrease clocked_heuristic rng_update_fn
                  _ H)).
Defined.

Lemma optimize_resumes_witness :
  optimize clocked_heuristic rng_update_fn 1 state_B =
  (Returned (Some 1%Z, score_of_Z 1),
   snd (optimize clocked_heuristic rng_update_fn 1 state_B)) /\
  self (snd (optimize clocked_heuristic rng_update_fn (1 + 2) state_B)) =
  self (snd (optimize clocked_heuristic rng_update_fn 2
               (snd (optimize clocked_heuristic rng_update_fn 1 state_B)))).
Proof.
  assert (H : optimize clocked_heuristic rng_update_fn 1 state_B =
              (Returned (Some 1%Z, score_of_Z 1),
               snd (optimize clocked_heuristic rng_update_fn 1 state_B)))
    by reflexivity.
  split; [exact H|].
  apply (proj1 (proj2 (optimize_resumes clocked_heuristic rng_update_fn
                         1 2 state_B _ _ ltac:(lia) ltac:(lia) H))).
Defined.

Lemma is_prime_correct_witness :
  (2 <= 97 -> Z.sqrt 97 <= Z.sqrt 97 < 97)%Z /\
  (Main.is_prime Z.sqrt 97 = true <-> Z.prime 97).
Proof.
  assert (H : (2 <= 97 -> Z.sqrt 97 <= Z.sqrt 97 < 97)%Z)
    by (intros _; change (Z.sqrt 97) with 9%Z; lia).
  split; [exact H|].
  apply (proj1 (is_prime_correct Z.sqrt 97 H)).
Defined.

Lemma heuristic_ranks_witness :
  Z.prime 7 /\ ~ Z.prime 8 /\
  score_lt (Main.heuristic Z.sqrt 7) (Main.heuristic Z.sqrt 8).
Proof.
  assert (H7 : (2 <= 7 -> Z.sqrt 7 <= Z.sqrt 7 < 7)%Z)
    by (intros _; change (Z.sqrt 7) with 2%Z; lia).
  assert (H8 : (2 <= 8 -> Z.sqrt 8 <= Z.sqrt 8 < 8)%Z)
    by (intros _; change (Z.sqrt 8) with 2%Z; lia).
  assert (Hp7 : Z.prime 7)
    by (apply (is_prime_prime Z.sqrt 7 H7); reflexivity).
  assert (Hp8 : ~ Z.prime 8).
  { intros Hp. apply (is_prime_prime Z.sqrt 8 H8) in Hp.
    discriminate Hp. }
  split; [exact Hp7|]. split; [exact Hp8|].
  apply (proj1 (proj2 (proj2 (heuristic_ranks Z.sqrt 7 8
                                H7 H8 Hp7 Hp8)))).
  lia.
Defined.

Lemma update_fn_clamps_witness :
  Main.rng_randint (-5) 5 (7, 0)%nat = (Returned 2%Z, (8, 0)%nat) /\
  Main.update_fn Main.rng_randint 98 Main.problem_space (7, 0)%nat =
  (Returned 99%Z, (8, 0)%nat).
Proof.
  assert (Hr : Main.rng_randint (-5) 5 (7, 0)%nat =
               (Returned 2%Z, (8, 0)%nat)) by reflexivity.
  split; [exact Hr|].
  destruct (update_fn_clamps Main.rng_randint 98 Main.problem_space
              (7, 0)%nat (8, 0)%nat 2 ltac:(simpl; lia) Hr)
    as (v & Hv & _ & _ & _ & Hhi & _).
  rewrite Hv. rewrite (Hhi ltac:(simpl; lia)). reflexivity.
Defined.

Lemma update_fn_empty_space_witness :
  (Main.range_stop (Main.mkRange 5 5) <=
   Main.range_start (Main.mkRange 5 5))%Z /\
  Main.update_fn Main.rng_randint 3 (Main.mkRange 5 5) (7, 0)%nat =
  (Raised ValueError, (8, 0)%nat).
Proof.
  assert (H : (Main.range_stop (Main.mkRange 5 5) <=
               Main.range_start (Main.mkRange 5 5))%Z) by (simpl; lia).
  split; [exact H|].
  apply (update_fn_empty_space Main.rng_randint 3 (Main.mkRange 5 5)
           (7, 0)%nat H).
Defined.

Lemma main_result_witness :
  (forall n, (2 <= n < 100)%Z -> (Z.sqrt n <= Z.sqrt n < n)%Z) /\
  exists p s,
    fst (Main.main Z.sqrt Main.rng_randint Main.rng_range_choice
           (7, 0)%nat) = Returned (Some p, s) /\
    (2 <= p < 100)%Z.
Proof.
  assert (Hsqrt : forall n, (2 <= n < 100)%Z ->
                    (Z.sqrt n <= Z.sqrt n < n)%Z).
  { intros n Hn. split; [lia|]. apply Z.sqrt_lt_lin. lia. }
  split; [exact Hsqrt|].
  destruct (main_result Z.sqrt Main.rng_randint Main.rng_range_choice
              (7, 0)%nat Hsqrt)
    as (o & w1 & p & s & st' & _ & _ & Hmain & Hp & _).
  - intros w0.
    apply (rng_range_choice_in Main.problem_space w0). simpl. lia.
  - intros w0. eexists _, _. reflexivity.
  - exists p, s. rewrite Hmain. split; [reflexivity | exact Hp].
Defined.
